(** * speech-server: the session bridge of server.py and transcriber.py

    A shallow embedding of the websocket handler ([SpeechHandler], server.py)
    and of the streaming worker ([Transcriber], [QueuedAudioStream],
    transcriber.py).

    Three threads of control touch one session: Tornado's loop (on_message,
    on_close), the thread that executes [Transcriber.run], and the gRPC
    consumer that iterates the request generator.  Every method is a
    computation in a small state, output and exception monad; the threads are
    interleaved by a list of events.  An event is one call of a handler
    method, one stretch of [run] between two points where it waits for the
    outside, or a part of one turn of the loop of the request generator: the
    test of its [while] loop, the rest of the turn up to the [yield], or both
    in a row.  Nothing synchronises the generator with [stop], so other
    events can come between the test and the rest of the turn.  What the
    outside decides comes with the event: the message and the clock reading,
    the response, the failure of a collaborator.

    Left out: console logging ([logging.info], [_log_stream], [_log_columns]),
    the files written by [_record_audio_files], the HTTP handlers, credential
    lookup and the channel set-up (their outcome is an event). *)

From Stdlib Require Import ZArith QArith List String Bool Lia.
From stdpp Require Import base option list gmap strings.
Import ListNotations.

Set Warnings "-register-all".
Local Open Scope string_scope.
Local Open Scope list_scope.

(** * Python values *)

(** The values [json.loads] can return, which are also the values the
    configuration attributes and [_start_time] can hold, and
    [datetime.timedelta], the type that has [total_seconds]. *)
Inductive pyval : Type :=
| PNone
| PBool (b : bool)
| PInt (n : Z)
| PFloat (x : Q)
| PStr (s : string)
| PList (l : list pyval)
| PDict (d : list (string * pyval))
| PTimedelta (secs : Q).

(** A byte string (Python 2 [str]): one websocket binary message. *)
Definition frame : Type := list Byte.byte.

Inductive exn : Type :=
| RuntimeError (msg : string)
| AttributeError (msg : string)
| TypeError (msg : string)
| IndexError (msg : string)
| KeyError (key : string)
| ExternalError (name : string).
    (* raised by a collaborator: json, grpc, the credentials library *)

Inductive result (A : Type) : Type :=
| Return (a : A)
| Raise (e : exn).
Arguments Return {A} a.
Arguments Raise {A} e.

(** Truth value testing ([if x:], [x and y]). *)
Definition truthy (v : pyval) : bool :=
  match v with
  | PNone => false
  | PBool b => b
  | PInt n => negb (n =? 0)%Z
  | PFloat x => negb (Qeq_bool x 0)
  | PStr s => match s with EmptyString => false | _ => true end
  | PList l => match l with [] => false | _ => true end
  | PDict d => match d with [] => false | _ => true end
  | PTimedelta secs => negb (Qeq_bool secs 0)
  end.

Definition frame_truthy (data : frame) : bool :=
  match data with [] => false | _ => true end.

Definition text_truthy (s : string) : bool :=
  match s with EmptyString => false | _ => true end.

(** [x - b] for a float [x]: a float when [b] is a number, a TypeError
    otherwise. *)
Definition float_sub (x : Q) (b : pyval) : result pyval :=
  match b with
  | PFloat y => Return (PFloat (x - y))
  | PInt n => Return (PFloat (x - inject_Z n))
  | PBool c => Return (PFloat (x - (if c then 1 else 0)))
  | _ => Raise (TypeError "unsupported operand type(s) for -")
  end.

Definition float_has_no_total_seconds : exn :=
  AttributeError "'float' object has no attribute 'total_seconds'".

(** [v.total_seconds()]: a method of [datetime.timedelta] only. *)
Definition total_seconds (v : pyval) : result Q :=
  match v with
  | PTimedelta secs => Return secs
  | PFloat _ => Raise float_has_no_total_seconds
  | _ => Raise (AttributeError "object has no attribute 'total_seconds'")
  end.

(** [time.time()] returns a float; [now] is the clock reading. *)
Definition time_time (now : Q) : pyval := PFloat now.

Fixpoint is_substring (p s : string) : bool :=
  String.prefix p s ||
  match s with
  | EmptyString => false
  | String _ s' => is_substring p s'
  end.

Fixpoint dict_get (d : list (string * pyval)) (key : string) : option pyval :=
  match d with
  | [] => None
  | (k, v) :: d' => if String.eqb k key then Some v else dict_get d' key
  end.

Definition is_str (name : string) (v : pyval) : bool :=
  match v with PStr s => String.eqb s name | _ => false end.

(** [name in data], for a unicode [name]. *)
Definition py_contains (name : string) (data : pyval) : result bool :=
  match data with
  | PDict d => Return (match dict_get d name with Some _ => true | None => false end)
  | PList l => Return (existsb (is_str name) l)
  | PStr s => Return (is_substring name s)
  | _ => Raise (TypeError "argument is not iterable")
  end.

(** [data[name]], for a unicode [name]. *)
Definition py_getitem (data : pyval) (name : string) : result pyval :=
  match data with
  | PDict d => match dict_get d name with
               | Some v => Return v
               | None => Raise (KeyError name)
               end
  | PList _ => Raise (TypeError "list indices must be integers")
  | PStr _ => Raise (TypeError "string indices must be integers")
  | _ => Raise (TypeError "object has no attribute '__getitem__'")
  end.

Definition is_none (v : pyval) : bool :=
  match v with PNone => true | _ => false end.

(** * What a session does to the outside *)

(** [types.StreamingRecognitionConfig], as built in [Transcriber.run]. *)
Record StreamingRecognitionConfig : Type := {
  enable_automatic_punctuation : pyval;
  config_encoding : pyval;
  sample_rate_hertz : pyval;
  language_code : pyval;
  config_interim_results : bool
}.

Inductive action : Type :=
| QueuePut (data : frame)
    (* audio_stream.write(data) *)
| ThreadStart
    (* threading.Thread.start(): a new thread will execute run() *)
| StreamingRecognize (cfg : StreamingRecognitionConfig)
    (* service.streaming_recognize(streaming_config, request_stream) *)
| Request (audio_content : frame)
    (* yield types.StreamingRecognizeRequest(audio_content=data) *)
| WriteMessage (payload : gmap string pyval)
    (* self.write_message(json.dumps(payload)) *)
| CloseSocket
    (* self.close() *)
| Uncaught (e : exn).
    (* an exception leaves a callback or the thread *)

(** * The monad: state, outputs in order, exceptions *)

Definition M (S A : Type) : Type := S -> S * list action * result A.

Definition ret {S A : Type} (a : A) : M S A :=
  fun s => (s, [], Return a).

Definition raise {S A : Type} (e : exn) : M S A :=
  fun s => (s, [], Raise e).

Definition bind {S A B : Type} (m : M S A) (k : A -> M S B) : M S B :=
  fun s =>
    match m s with
    | (s1, out1, Return a) =>
        match k a s1 with
        | (s2, out2, r) => (s2, out1 ++ out2, r)
        end
    | (s1, out1, Raise e) => (s1, out1, Raise e)
    end.

Notation "x <- m ;; k" := (bind m (fun x => k))
  (at level 100, m at next level, right associativity).
Notation "m ;; k" := (bind m (fun _ => k))
  (at level 100, right associativity).

Definition get {S : Type} : M S S :=
  fun s => (s, [], Return s).

Definition modify {S : Type} (f : S -> S) : M S unit :=
  fun s => (f s, [], Return tt).

Definition emit {S : Type} (a : action) : M S unit :=
  fun s => (s, [a], Return tt).

Definition lift_result {S A : Type} (r : result A) : M S A :=
  fun s => (s, [], r).

(** [try: body finally: fin]. *)
Definition try_finally {S A : Type} (body : M S A) (fin : M S unit) : M S A :=
  fun s =>
    match body s with
    | (s1, out1, r) =>
        match fin s1 with
        | (s2, out2, Return _) => (s2, out1 ++ out2, r)
        | (s2, out2, Raise e) => (s2, out1 ++ out2, Raise e)
        end
    end.

(** Runs [m] and hands its outcome over instead of propagating it. *)
Definition attempt {S A : Type} (m : M S A) : M S (result A) :=
  fun s =>
    match m s with
    | (s1, out1, r) => (s1, out1, Return r)
    end.

(** Runs a method of a component of the state on that component. *)
Definition zoom {S T A : Type} (view : S -> T) (update : T -> S -> S)
    (m : M T A) : M S A :=
  fun s =>
    match m (view s) with
    | (t1, out1, r) => (update t1 s, out1, r)
    end.

(** * transcriber.py *)

Definition TIMEOUT_SECS : Z := 8 * 60 * 60.

(** The result passed to the on_transcribed callback. *)
Record TranscribedResult : Type := {
  text : string;
  is_final : bool
}.

(** The parts of a [StreamingRecognizeResponse] that [_handle_results]
    reads. *)
Record Alternative : Type := { transcript : string }.

Record RecognitionResult : Type := {
  alternatives : list Alternative;
  result_is_final : bool
}.

Record StreamingRecognizeResponse : Type := {
  error_code : Z;
  error_message : string;
  results : list RecognitionResult
}.

(** [code_pb2.OK]. *)
Definition OK : Z := 0.

(** Modelled from the spec: the member LINEAR16 of
    [enums.RecognitionConfig.AudioEncoding], a constant of the Cloud Speech
    client library, which is not in the repository.  The spec names the
    default encoding LINEAR16; the library numbers that member 1. *)
Definition LINEAR16 : pyval := PInt 1.

(** ** QueuedAudioStream *)

Record QueuedAudioStream : Type := { queue : list frame }.

Definition QueuedAudioStream_init : QueuedAudioStream := {| queue := [] |}.

(** [write]: [self.queue.put(data)]. *)
Definition write (data : frame) : M QueuedAudioStream unit :=
  emit (QueuePut data) ;;
  modify (fun s => {| queue := queue s ++ [data] |}).

(** [read]: the head of the queue when there is one and it is truthy,
    otherwise [None]; the head is taken off the queue in both cases. *)
Definition read : M QueuedAudioStream (option frame) :=
  s <- get ;;
  match queue s with
  | [] => ret None
  | data :: rest =>
      modify (fun _ => {| queue := rest |}) ;;
      if frame_truthy data then ret (Some data) else ret None
  end.

(** [__exit__]: [self.queue.queue.clear()]. *)
Definition __exit__ : M QueuedAudioStream unit :=
  modify (fun _ => {| queue := [] |}).

(** ** Transcriber *)

(** Where the thread that executes [run] stands.  [threading.Thread] keeps
    the first and the last of these; the two in the middle are the places
    where [run] waits for the outside: for the channel, and for the next
    response inside the [try] block. *)
Inductive thread_state : Type :=
| ThreadInitial
| ThreadStarted
| ThreadConnecting
| ThreadInTry
| ThreadExited (r : result unit).

(** Where the generator made by [_request_stream] stands: not made yet,
    made but not resumed, inside the [with] block, finished.  Inside the
    [with] block, [in_loop_body] below tells whether it is past the test of
    its [while] loop and before the [yield] or the next test. *)
Inductive generator_state : Type :=
| GenAbsent
| GenCreated
| GenInWith
| GenFinished.

(** The attributes of a transcriber, and what the run-time keeps for it:
    where its thread stands, where the request generator stands, and whether
    that generator is in the body of its loop. *)
Record Transcriber : Type := {
  audio_stream : QueuedAudioStream;
  encoding : pyval;
  language : pyval;
  punctuation : pyval;
  rate : pyval;
  timeout_secs : Z;
  interim_results : bool;
  is_connected : bool;
  is_started : bool;
  _thread_started : bool;
  _stop_event : bool;
  thread : thread_state;
  request_stream : generator_state;
  in_loop_body : bool
}.

(** [Transcriber.__init__], with the default of every keyword argument. *)
Definition Transcriber_init : Transcriber := {|
  audio_stream := QueuedAudioStream_init;
  encoding := LINEAR16;
  language := PStr "en-US";
  punctuation := PBool true;
  rate := PInt 44100;
  timeout_secs := TIMEOUT_SECS;
  interim_results := true;
  is_connected := false;
  is_started := false;
  _thread_started := false;
  _stop_event := false;
  thread := ThreadInitial;
  request_stream := GenAbsent;
  in_loop_body := false
|}.

Definition set_audio_stream (v : QueuedAudioStream) (t : Transcriber) : Transcriber :=
  Build_Transcriber v (encoding t) (language t) (punctuation t) (rate t)
    (timeout_secs t) (interim_results t) (is_connected t) (is_started t)
    (_thread_started t) (_stop_event t) (thread t) (request_stream t)
    (in_loop_body t).

Definition set_encoding (v : pyval) (t : Transcriber) : Transcriber :=
  Build_Transcriber (audio_stream t) v (language t) (punctuation t) (rate t)
    (timeout_secs t) (interim_results t) (is_connected t) (is_started t)
    (_thread_started t) (_stop_event t) (thread t) (request_stream t)
    (in_loop_body t).

Definition set_language (v : pyval) (t : Transcriber) : Transcriber :=
  Build_Transcriber (audio_stream t) (encoding t) v (punctuation t) (rate t)
    (timeout_secs t) (interim_results t) (is_connected t) (is_started t)
    (_thread_started t) (_stop_event t) (thread t) (request_stream t)
    (in_loop_body t).

Definition set_punctuation (v : pyval) (t : Transcriber) : Transcriber :=
  Build_Transcriber (audio_stream t) (encoding t) (language t) v (rate t)
    (timeout_secs t) (interim_results t) (is_connected t) (is_started t)
    (_thread_started t) (_stop_event t) (thread t) (request_stream t)
    (in_loop_body t).

Definition set_rate (v : pyval) (t : Transcriber) : Transcriber :=
  Build_Transcriber (audio_stream t) (encoding t) (language t) (punctuation t) v
    (timeout_secs t) (interim_results t) (is_connected t) (is_started t)
    (_thread_started t) (_stop_event t) (thread t) (request_stream t)
    (in_loop_body t).

Definition set_is_connected (v : bool) (t : Transcriber) : Transcriber :=
  Build_Transcriber (audio_stream t) (encoding t) (language t) (punctuation t)
    (rate t) (timeout_secs t) (interim_results t) v (is_started t)
    (_thread_started t) (_stop_event t) (thread t) (request_stream t)
    (in_loop_body t).

Definition set_is_started (v : bool) (t : Transcriber) : Transcriber :=
  Build_Transcriber (audio_stream t) (encoding t) (language t) (punctuation t)
    (rate t) (timeout_secs t) (interim_results t) (is_connected t) v
    (_thread_started t) (_stop_event t) (thread t) (request_stream t)
    (in_loop_body t).

Definition set_thread_started (v : bool) (t : Transcriber) : Transcriber :=
  Build_Transcriber (audio_stream t) (encoding t) (language t) (punctuation t)
    (rate t) (timeout_secs t) (interim_results t) (is_connected t)
    (is_started t) v (_stop_event t) (thread t) (request_stream t)
    (in_loop_body t).

Definition set_stop_event (v : bool) (t : Transcriber) : Transcriber :=
  Build_Transcriber (audio_stream t) (encoding t) (language t) (punctuation t)
    (rate t) (timeout_secs t) (interim_results t) (is_connected t)
    (is_started t) (_thread_started t) v (thread t) (request_stream t)
    (in_loop_body t).

Definition set_thread (v : thread_state) (t : Transcriber) : Transcriber :=
  Build_Transcriber (audio_stream t) (encoding t) (language t) (punctuation t)
    (rate t) (timeout_secs t) (interim_results t) (is_connected t)
    (is_started t) (_thread_started t) (_stop_event t) v (request_stream t)
    (in_loop_body t).

Definition set_request_stream (v : generator_state) (t : Transcriber) : Transcriber :=
  Build_Transcriber (audio_stream t) (encoding t) (language t) (punctuation t)
    (rate t) (timeout_secs t) (interim_results t) (is_connected t)
    (is_started t) (_thread_started t) (_stop_event t) (thread t) v
    (in_loop_body t).

Definition set_in_loop_body (v : bool) (t : Transcriber) : Transcriber :=
  Build_Transcriber (audio_stream t) (encoding t) (language t) (punctuation t)
    (rate t) (timeout_secs t) (interim_results t) (is_connected t)
    (is_started t) (_thread_started t) (_stop_event t) (thread t)
    (request_stream t) v.

(** A method of [self.audio_stream], run on the transcriber. *)
Definition on_stream {A : Type} (m : M QueuedAudioStream A) : M Transcriber A :=
  zoom audio_stream set_audio_stream m.

(** [transcribe]: [self.audio_stream.write(data)]. *)
Definition transcribe (data : frame) : M Transcriber unit :=
  on_stream (write data).

(** The error of a second [threading.Thread.start]. *)
Definition double_start : exn :=
  RuntimeError "threads can only be started once".

(** [threading.Thread.start], which refuses a second call. *)
Definition Thread_start : M Transcriber unit :=
  t <- get ;;
  match thread t with
  | ThreadInitial => modify (set_thread ThreadStarted) ;; emit ThreadStart
  | _ => raise double_start
  end.

(** [start]. *)
Definition start : M Transcriber unit :=
  t <- get ;;
  if _thread_started t then ret tt
  else
    modify (set_thread_started true) ;;
    t <- get ;;
    if negb (_stop_event t) then Thread_start else ret tt.

(** [stop]. *)
Definition stop : M Transcriber unit :=
  modify (set_is_started false) ;;
  modify (set_stop_event true).

(** The configuration handed to [streaming_recognize]. *)
Definition streaming_config (t : Transcriber) : StreamingRecognitionConfig := {|
  enable_automatic_punctuation := punctuation t;
  config_encoding := encoding t;
  sample_rate_hertz := rate t;
  language_code := language t;
  config_interim_results := interim_results t
|}.

(** [setattr(self.transcriber, name, value)], for the names on_message
    uses. *)
Definition setattr (name : string) (v : pyval) (t : Transcriber) : Transcriber :=
  if String.eqb name "rate" then set_rate v t
  else if String.eqb name "language" then set_language v t
  else if String.eqb name "encoding" then set_encoding v t
  else if String.eqb name "punctuation" then set_punctuation v t
  else t.

(** ** The worker: run, _handle_results, _request_stream

    The callbacks are fixed when the transcriber is made; they act on the
    state [S] of whoever owns the transcriber, in which the transcriber is
    found by [view] and put back by [update]. *)

Fixpoint for_each {S A : Type} (l : list A) (body : A -> M S unit) : M S unit :=
  match l with
  | [] => ret tt
  | x :: l' => body x ;; for_each l' body
  end.

(** The background of a session: what the thread of [run] and the gRPC
    consumer of the request generator do next, and what the outside hands
    them. *)
Inductive worker_event : Type :=
| ThreadRun
    (* the new thread enters run() and tests the stop event *)
| ChannelReady
    (* _create_channel() returned, and SpeechClient and
       StreamingRecognitionConfig were built from the attributes *)
| ChannelFailed (name : string)
    (* _create_channel() raised the collaborator's exception name *)
| ConfigFailed (name : string)
    (* _create_channel() returned, and SpeechClient or
       StreamingRecognitionConfig raised name: the client library checks
       the values it is given *)
| Response (resp : StreamingRecognizeResponse)
    (* resp_stream produced resp *)
| ResponseEnd
    (* resp_stream is exhausted *)
| ResponseError (name : string)
    (* streaming_recognize or resp_stream raised the exception name *)
| LoopTest
    (* the request generator, resumed by the consumer, makes the test of
       its while loop *)
| Pull
    (* the request generator does the rest of the turn whose test it has
       made, or a whole turn, test included *)
| GenClose.
    (* the request generator is closed while suspended *)

Section Worker.
Context {S : Type}.
Variable view : S -> Transcriber.
Variable update : Transcriber -> S -> S.
Variable on_connected : option (M S unit).
Variable on_transcribing : option (frame -> M S unit).
Variable on_transcribed : option (TranscribedResult -> M S unit).

Definition self {A : Type} (m : M Transcriber A) : M S A :=
  zoom view update m.

(** The body of the outer [for] loop of [_handle_results]. *)
Definition handle_response (resp : StreamingRecognizeResponse) : M S unit :=
  if negb (error_code resp =? OK)%Z then
    self stop ;;
    raise (RuntimeError (String.append "Speech API Error: " (error_message resp)))
  else
    for_each (results resp) (fun result =>
      match on_transcribed with
      | Some callback =>
          match alternatives result with
          | [] => raise (IndexError "list index out of range")
          | alt :: _ =>
              callback {| text := transcript alt;
                          is_final := result_is_final result |}
          end
      | None => ret tt
      end).

(** [_handle_results], over a response stream that produces [resps] and
    then ends, or raises the exception [ending]. *)
Fixpoint _handle_results (resps : list StreamingRecognizeResponse)
    (ending : option string) : M S unit :=
  match resps with
  | [] => match ending with
          | Some name => raise (ExternalError name)
          | None => ret tt
          end
  | resp :: resps' => handle_response resp ;; _handle_results resps' ending
  end.

(** Leaving the [with] block of [_request_stream], on any path. *)
Definition leave_with : M S unit :=
  self (on_stream __exit__) ;;
  self (modify (set_request_stream GenFinished)).

(** [_request_stream] from its first line to the [with] statement. *)
Definition request_stream_enter : M S unit :=
  self (modify (set_is_connected true)) ;;
  match on_connected with
  | Some callback => callback
  | None => ret tt
  end ;;
  self (modify (set_request_stream GenInWith)).

(** The body of the [while] loop of [_request_stream], from [read] to the
    [yield]; an exception in it leaves the [with] block before it
    propagates. *)
Definition request_stream_body : M S unit :=
  r <- attempt
         (data <- self (on_stream read) ;;
          match data with
          | Some d =>
              if frame_truthy d then
                match on_transcribing with
                | Some callback => callback d
                | None => ret tt
                end ;;
                emit (Request d)
              else ret tt
          | None => ret tt
          end) ;;
  match r with
  | Return _ => self (modify (set_in_loop_body false))
  | Raise e => leave_with ;; raise e
  end.

(** The test of the [while] loop, when it has not been made for this
    turn. *)
Definition request_stream_test : M S unit :=
  t <- self get ;;
  if in_loop_body t then ret tt
  else if _stop_event t then leave_with
  else self (modify (set_in_loop_body true)).

(** One turn of the [while] loop, or what is left of it when the test
    has been made. *)
Definition request_stream_turn : M S unit :=
  t <- self get ;;
  if in_loop_body t then request_stream_body
  else if _stop_event t then leave_with
  else request_stream_body.

(** The consumer asks the generator for its next item: the generator runs
    [part] of a turn of its loop, after its first lines when it had not been
    resumed before. *)
Definition request_stream_resume (part : M S unit) : M S unit :=
  t <- self get ;;
  match request_stream t with
  | GenCreated =>
      r <- attempt request_stream_enter ;;
      match r with
      | Return _ => part
      | Raise e => self (modify (set_request_stream GenFinished)) ;; raise e
      end
  | GenInWith => part
  | _ => ret tt
  end.

(** [close()] of the generator: GeneratorExit is raised at the [yield].
    A generator that is running, between the test and the [yield], is not
    suspended and cannot be closed. *)
Definition request_stream_close : M S unit :=
  t <- self get ;;
  match request_stream t with
  | GenCreated => self (modify (set_request_stream GenFinished))
  | GenInWith => if in_loop_body t then ret tt else leave_with
  | _ => ret tt
  end.

(** [run], given how [_create_channel] turns out ([channel]), how the
    making of the client and of the configuration turns out ([built]), and
    what the response stream produces.  The request generator is made here
    and resumed by the consumer, not by [run]. *)
Definition run (channel built : option string)
    (resps : list StreamingRecognizeResponse) (ending : option string) : M S unit :=
  t <- self get ;;
  if _stop_event t then ret tt
  else
    match channel with
    | Some name => raise (ExternalError name)
    | None => ret tt
    end ;;
    self (modify (set_is_started true)) ;;
    match built with
    | Some name => raise (ExternalError name)
    | None => ret tt
    end ;;
    try_finally
      (self (modify (set_request_stream GenCreated)) ;;
       t <- self get ;;
       emit (StreamingRecognize (streaming_config t)) ;;
       _handle_results resps ending)
      (self stop).

Definition thread_exit (r : result unit) : M S unit :=
  self (modify (set_thread (ThreadExited r))) ;;
  match r with
  | Return _ => ret tt
  | Raise e => emit (Uncaught e)
  end.

(** The thread from its first to its last instruction, when nothing else
    happens meanwhile. *)
Definition thread_main (channel built : option string)
    (resps : list StreamingRecognizeResponse) (ending : option string) : M S unit :=
  t <- self get ;;
  match thread t with
  | ThreadStarted => r <- attempt (run channel built resps ending) ;; thread_exit r
  | _ => ret tt
  end.

(** The same code, one event at a time. *)
Definition worker_step (ev : worker_event) : M S unit :=
  t <- self get ;;
  match ev, thread t with
  | ThreadRun, ThreadStarted =>
      if _stop_event t then thread_exit (Return tt)
      else self (modify (set_thread ThreadConnecting))
  | ChannelReady, ThreadConnecting =>
      self (modify (set_is_started true)) ;;
      self (modify (set_request_stream GenCreated)) ;;
      t <- self get ;;
      emit (StreamingRecognize (streaming_config t)) ;;
      self (modify (set_thread ThreadInTry))
  | ChannelFailed name, ThreadConnecting => thread_exit (Raise (ExternalError name))
  | ConfigFailed name, ThreadConnecting =>
      self (modify (set_is_started true)) ;;
      thread_exit (Raise (ExternalError name))
  | Response resp, ThreadInTry =>
      r <- attempt (handle_response resp) ;;
      match r with
      | Return _ => ret tt
      | Raise e => self stop ;; thread_exit (Raise e)
      end
  | ResponseEnd, ThreadInTry => self stop ;; thread_exit (Return tt)
  | ResponseError name, ThreadInTry =>
      self stop ;; thread_exit (Raise (ExternalError name))
  | LoopTest, _ =>
      r <- attempt (request_stream_resume request_stream_test) ;;
      match r with
      | Return _ => ret tt
      | Raise e => emit (Uncaught e)
      end
  | Pull, _ =>
      r <- attempt (request_stream_resume request_stream_turn) ;;
      match r with
      | Return _ => ret tt
      | Raise e => emit (Uncaught e)
      end
  | GenClose, _ => request_stream_close
  | _, _ => ret tt
  end.
End Worker.

(** * server.py *)

(** Timeout in which connection is automatically closed. *)
Definition TIMEOUT : Z := 60.

Record SpeechHandler : Type := {
  transcriber : Transcriber;
  _id : nat;
  _start_time : pyval;
  _recorded_audio_data : list frame;
  request_host_is_local : bool
    (* self.request.host == 'localhost:%i' % get_port() *)
}.

Definition set_transcriber (v : Transcriber) (h : SpeechHandler) : SpeechHandler :=
  Build_SpeechHandler v (_id h) (_start_time h) (_recorded_audio_data h)
    (request_host_is_local h).

Definition set_start_time (v : pyval) (h : SpeechHandler) : SpeechHandler :=
  Build_SpeechHandler (transcriber h) (_id h) v (_recorded_audio_data h)
    (request_host_is_local h).

Definition set_recorded_audio_data (v : list frame) (h : SpeechHandler) : SpeechHandler :=
  Build_SpeechHandler (transcriber h) (_id h) (_start_time h) v
    (request_host_is_local h).

(** [SpeechHandler.__init__], with the id drawn from [_id_counter]. *)
Definition SpeechHandler_init (id : nat) (local : bool) : SpeechHandler := {|
  transcriber := Transcriber_init;
  _id := id;
  _start_time := PNone;
  _recorded_audio_data := [];
  request_host_is_local := local
|}.

(** A method of [self.transcriber], run on the handler. *)
Definition on_transcriber {A : Type} (m : M Transcriber A) : M SpeechHandler A :=
  zoom transcriber set_transcriber m.

(** [on_transcribing]. *)
Definition on_transcribing (recorded_audio_data : frame) : M SpeechHandler unit :=
  h <- get ;;
  if request_host_is_local h then
    modify (set_recorded_audio_data (_recorded_audio_data h ++ [recorded_audio_data]))
  else ret tt.

(** The dict that [on_transcribed] serialises. *)
Definition result_payload (result : TranscribedResult) : gmap string pyval :=
  <["text" := PStr (text result)]> (<["isFinal" := PBool (is_final result)]> ∅).

(** [on_transcribed]; a named tuple of two fields is truthy, so the test is
    on the text alone. *)
Definition on_transcribed (result : TranscribedResult) : M SpeechHandler unit :=
  if text_truthy (text result) then emit (WriteMessage (result_payload result))
  else ret tt.

(** The transcriber of a handler is made with on_transcribed and
    on_transcribing, and without on_connected. *)
Definition handler_step : worker_event -> M SpeechHandler unit :=
  worker_step transcriber set_transcriber None (Some on_transcribing) (Some on_transcribed).

Definition handler_thread_main : option string -> option string ->
    list StreamingRecognizeResponse -> option string -> M SpeechHandler unit :=
  thread_main transcriber set_transcriber (Some on_transcribed).

(** A websocket message: unicode text, given with what [json.loads] makes of
    it ([None] when it is not JSON), or a byte string. *)
Inductive ws_message : Type :=
| Text (loaded : option pyval)
| Binary (data : frame).

(** [json.loads(data)]. *)
Definition json_loads (loaded : option pyval) : result pyval :=
  match loaded with
  | Some data => Return data
  | None => Raise (ExternalError "ValueError: No JSON object could be decoded")
  end.

(** The timeout test at the head of [on_message]. *)
Definition timed_out (now : Q) : M SpeechHandler bool :=
  h <- get ;;
  if truthy (_start_time h) && is_started (transcriber h) then
    elapsed <- lift_result (float_sub now (_start_time h)) ;;
    secs <- lift_result (total_seconds elapsed) ;;
    ret (negb (Qle_bool secs (inject_Z TIMEOUT)))
  else ret false.

(** The body of the loop over the four configuration names. *)
Definition configure_field (data : pyval) (name : string) : M SpeechHandler unit :=
  present <- lift_result (py_contains name data) ;;
  if present then
    v <- lift_result (py_getitem data name) ;;
    if negb (is_none v) then on_transcriber (modify (setattr name v))
    else ret tt
  else ret tt.

(** [on_message]; [now] is the reading of [time.time()] during the call. *)
Definition on_message (msg : ws_message) (now : Q) : M SpeechHandler unit :=
  expired <- timed_out now ;;
  if expired then emit CloseSocket
  else
    match msg with
    | Text loaded =>
        data <- lift_result (json_loads loaded) ;;
        for_each ["rate"; "language"; "encoding"; "punctuation"] (configure_field data) ;;
        on_transcriber start
    | Binary data =>
        h <- get ;;
        (if negb (is_started (transcriber h)) then
           modify (set_start_time (time_time now)) ;;
           on_transcriber start
         else ret tt) ;;
        on_transcriber (transcribe data)
    end.

(** What [on_close] does to the handler itself; the registry part is
    [on_close] below. *)
Definition on_close_handler : M SpeechHandler unit :=
  on_transcriber stop.

(** ** One session under every interleaving *)

Inductive api_call : Type :=
| Start
| Stop
| Transcribe (data : frame).

Inductive event : Type :=
| Message (msg : ws_message) (now : Q)
    (* Tornado delivers a message to on_message *)
| SocketClosed
    (* Tornado calls on_close *)
| Call (c : api_call)
    (* a public method of the transcriber is called directly *)
| Background (ev : worker_event).

Definition exec (ev : event) : M SpeechHandler unit :=
  match ev with
  | Message msg now => on_message msg now
  | SocketClosed => on_close_handler
  | Call Start => on_transcriber start
  | Call Stop => on_transcriber stop
  | Call (Transcribe data) => on_transcriber (transcribe data)
  | Background ev => handler_step ev
  end.

(** One event: the state after it and what it did; an exception that
    leaves the method is recorded. *)
Definition step (ev : event) (h : SpeechHandler) : SpeechHandler * list action :=
  match exec ev h with
  | (h', out, Return _) => (h', out)
  | (h', out, Raise e) => (h', out ++ [Uncaught e])
  end.

Fixpoint steps (evs : list event) (h : SpeechHandler) : SpeechHandler * list action :=
  match evs with
  | [] => (h, [])
  | ev :: evs' =>
      let '(h1, out1) := step ev h in
      let '(h2, out2) := steps evs' h1 in
      (h2, out1 ++ out2)
  end.

Definition state_after (evs : list event) (h : SpeechHandler) : SpeechHandler :=
  fst (steps evs h).

Definition actions_of (evs : list event) (h : SpeechHandler) : list action :=
  snd (steps evs h).

(** ** The registry of connected clients *)

(** The two module-level globals of server.py and the handler objects made
    so far.  A handler is referred to by its position in [handlers]; the
    dict [_clients] holds such references. *)
Record Server : Type := {
  _clients : gmap nat nat;
  _id_counter : nat;
  handlers : list SpeechHandler
}.

Definition Server_init : Server := {|
  _clients := ∅;
  _id_counter := 0;
  handlers := []
|}.

(** Tornado makes a handler for a request: [__init__] draws
    [_id_counter.next()]. *)
Definition new_handler (local : bool) (sv : Server) : Server := {|
  _clients := _clients sv;
  _id_counter := S (_id_counter sv);
  handlers := handlers sv ++ [SpeechHandler_init (_id_counter sv) local]
|}.

(** [open], of the handler at [a]. *)
Definition open (a : nat) (sv : Server) : Server :=
  match handlers sv !! a with
  | Some h =>
      match _clients sv !! _id h with
      | None => {| _clients := <[_id h := a]> (_clients sv);
                   _id_counter := _id_counter sv;
                   handlers := handlers sv |}
      | Some _ => sv
      end
  | None => sv
  end.

(** An event of the session of the handler at [a]. *)
Definition deliver (a : nat) (ev : event) (sv : Server) : Server :=
  match handlers sv !! a with
  | Some h => {| _clients := _clients sv;
                 _id_counter := _id_counter sv;
                 handlers := <[a := fst (step ev h)]> (handlers sv) |}
  | None => sv
  end.

(** [on_close], of the handler at [a]: stop the transcriber, then drop the
    id from [_clients] when it is there. *)
Definition on_close (a : nat) (sv : Server) : Server :=
  match handlers sv !! a with
  | Some h =>
      let sv1 := deliver a SocketClosed sv in
      match _clients sv1 !! _id h with
      | Some _ => {| _clients := delete (_id h) (_clients sv1);
                     _id_counter := _id_counter sv1;
                     handlers := handlers sv1 |}
      | None => sv1
      end
  | None => sv
  end.

Inductive server_event : Type :=
| NewHandler (local : bool)
| Opened (a : nat)
| Session (a : nat) (ev : event).

(** Tornado calls [on_close] where the session sees [SocketClosed]. *)
Definition server_step (sv : Server) (ev : server_event) : Server :=
  match ev with
  | NewHandler local => new_handler local sv
  | Opened a => open a sv
  | Session a SocketClosed => on_close a sv
  | Session a ev => deliver a ev sv
  end.

Definition server_after (evs : list server_event) : Server :=
  fold_left server_step evs Server_init.

(** * Reading a list of actions *)

(** The frames written to the queue, in order. *)
Fixpoint pushed (out : list action) : list frame :=
  match out with
  | [] => []
  | QueuePut data :: out' => data :: pushed out'
  | _ :: out' => pushed out'
  end.

(** The frames handed to the service, in order. *)
Fixpoint requests (out : list action) : list frame :=
  match out with
  | [] => []
  | Request data :: out' => data :: requests out'
  | _ :: out' => requests out'
  end.

(** The messages written to the websocket, in order. *)
Fixpoint messages (out : list action) : list (gmap string pyval) :=
  match out with
  | [] => []
  | WriteMessage payload :: out' => payload :: messages out'
  | _ :: out' => messages out'
  end.

(** The exceptions that nothing caught, in order. *)
Fixpoint uncaught (out : list action) : list exn :=
  match out with
  | [] => []
  | Uncaught e :: out' => e :: uncaught out'
  | _ :: out' => uncaught out'
  end.

Fixpoint thread_starts (out : list action) : nat :=
  match out with
  | [] => 0
  | ThreadStart :: out' => S (thread_starts out')
  | _ :: out' => thread_starts out'
  end.

Fixpoint stream_opens (out : list action) : nat :=
  match out with
  | [] => 0
  | StreamingRecognize _ :: out' => S (stream_opens out')
  | _ :: out' => stream_opens out'
  end.

Fixpoint socket_closes (out : list action) : nat :=
  match out with
  | [] => 0
  | CloseSocket :: out' => S (socket_closes out')
  | _ :: out' => socket_closes out'
  end.

(** * Predicate transformer of the monad *)

Definition wp {S A : Type} (m : M S A) (s : S)
    (post : S -> list action -> result A -> Prop) : Prop :=
  match m s with
  | (s', out, r) => post s' out r
  end.

(** * Notions the proofs use *)

(** Two transcribers that differ in the four configurable attributes at
    most. *)
Definition config_only (t t' : Transcriber) : Prop :=
  audio_stream t' = audio_stream t /\
  timeout_secs t' = timeout_secs t /\
  interim_results t' = interim_results t /\
  is_connected t' = is_connected t /\
  is_started t' = is_started t /\
  _thread_started t' = _thread_started t /\
  _stop_event t' = _stop_event t /\
  thread t' = thread t /\
  request_stream t' = request_stream t /\
  in_loop_body t' = in_loop_body t.

(** What the inner loop of [_handle_results] does with the results of one
    response when the callback is [SpeechHandler.on_transcribed]: the
    messages written, and how the loop ends. *)
Fixpoint relay (rs : list RecognitionResult) : list action * result unit :=
  match rs with
  | [] => ([], Return tt)
  | r :: rs' =>
      match alternatives r with
      | [] => ([], Raise (IndexError "list index out of range"))
      | alt :: _ =>
          let res := {| text := transcript alt; is_final := result_is_final r |} in
          ((if text_truthy (text res) then [WriteMessage (result_payload res)] else [])
             ++ fst (relay rs'),
           snd (relay rs'))
      end
  end.

(** * Notions the properties are stated with *)

(** The frames of a queue that are not the empty byte string. *)
Definition nonempty_frames (q : list frame) : list frame :=
  List.filter frame_truthy q.

(** The states of the worker named by the specification, read off the
    flags of the transcriber.  [is_started], which the class documents as
    "audio is being transcribed", decides first: a transcriber with the flag
    set is Streaming, whatever the stop event says; otherwise it is Stopped
    when the stop event is set, and Connecting when [start] has been
    called. *)
Inductive status : Type :=
| NotStarted
| Connecting
| Streaming
| Stopped.

Definition status_of (t : Transcriber) : status :=
  if is_started t then Streaming
  else if _stop_event t then Stopped
  else if _thread_started t then Connecting
  else NotStarted.

(** [getattr(self.transcriber, name)] for the four configurable names. *)
Definition getattr (name : string) (t : Transcriber) : pyval :=
  if String.eqb name "rate" then rate t
  else if String.eqb name "language" then language t
  else if String.eqb name "encoding" then encoding t
  else if String.eqb name "punctuation" then punctuation t
  else PNone.

(** The test at the head of [on_message]. *)
Definition timeout_guard (h : SpeechHandler) : bool :=
  truthy (_start_time h) && is_started (transcriber h).

(** A state a session can be in: some events after [__init__]. *)
Definition reachable (h : SpeechHandler) : Prop :=
  exists id local evs, h = state_after evs (SpeechHandler_init id local).

(** [n] calls of [start] in a row. *)
Definition start_times (n : nat) : M Transcriber unit :=
  for_each (repeat tt n) (fun _ => start).

(** What a result becomes for the callback, when it has an alternative. *)
Definition transcribed_of (r : RecognitionResult) : option TranscribedResult :=
  match alternatives r with
  | [] => None
  | alt :: _ => Some {| text := transcript alt; is_final := result_is_final r |}
  end.

(** The results of a sequence of responses, in the order of arrival. *)
Definition result_events (resps : list StreamingRecognizeResponse) : list RecognitionResult :=
  flat_map results resps.

Definition well_formed (resps : list StreamingRecognizeResponse) : Prop :=
  Forall (fun resp => error_code resp = OK) resps /\
  Forall (fun r => alternatives r <> []) (result_events resps).

(** The handlers made by the events before a point. *)
Fixpoint handlers_made (evs : list server_event) : nat :=
  match evs with
  | [] => 0
  | NewHandler _ :: evs' => S (handlers_made evs')
  | _ :: evs' => handlers_made evs'
  end.

(** Handler [a] has been opened and not closed since. *)
Definition open_now (evs : list server_event) (a : nat) : Prop :=
  exists before after,
    evs = before ++ Opened a :: after /\
    a < handlers_made before /\
    ~ In (Session a SocketClosed) after.

(** How many threads [start] can still start, and how many streaming calls
    [run] can still open. *)
Definition can_start (h : SpeechHandler) : nat :=
  match thread (transcriber h) with
  | ThreadInitial => 1
  | _ => 0
  end.

Definition can_open (h : SpeechHandler) : nat :=
  match thread (transcriber h) with
  | ThreadInitial | ThreadStarted | ThreadConnecting => 1
  | _ => 0
  end.

(** The thread of [run] is in its [try] block or has left it. *)
Definition past_connecting (h : SpeechHandler) : Prop :=
  match thread (transcriber h) with
  | ThreadInTry | ThreadExited _ => True
  | _ => False
  end.

(** The thread of [run] has not passed the stop test of [run], or has
    exited. *)
Definition not_running (h : SpeechHandler) : Prop :=
  match thread (transcriber h) with
  | ThreadConnecting | ThreadInTry => False
  | _ => True
  end.

(** The frames that the turn of the request loop under way can still hand
    over: one when the test of the loop has been made and the turn is not
    over, none otherwise. *)
Definition in_flight (h : SpeechHandler) : nat :=
  if in_loop_body (transcriber h) then 1 else 0.

(** Invariants of the states a session can be in. *)
Definition guarded_thread (h : SpeechHandler) : Prop :=
  thread (transcriber h) <> ThreadInitial -> _thread_started (transcriber h) = true.

Definition started_past_connecting (h : SpeechHandler) : Prop :=
  is_started (transcriber h) = true -> past_connecting h.

Definition generator_after_connect (h : SpeechHandler) : Prop :=
  request_stream (transcriber h) <> GenAbsent -> past_connecting h.

Definition consistent (h : SpeechHandler) : Prop :=
  guarded_thread h /\ started_past_connecting h /\ generator_after_connect h.

(** How a lookup of a configuration name in the message can end. *)
Definition lookup_outcome (r : result unit) : Prop :=
  match r with
  | Return _ => True
  | Raise (TypeError _) => True
  | Raise (KeyError _) => True
  | Raise _ => False
  end.

(** The results the callback gets from a sequence of responses, and those
    of them that carry a text. *)
Definition transcribed (resps : list StreamingRecognizeResponse) : list TranscribedResult :=
  flat_map (fun r => match transcribed_of r with
                     | Some x => [x]
                     | None => []
                     end) (result_events resps).

Definition relayed (resps : list StreamingRecognizeResponse) : list TranscribedResult :=
  List.filter (fun x => text_truthy (text x)) (transcribed resps).

(** The methods of the transcriber of a handler. *)
Definition handler_handle_results :
    list StreamingRecognizeResponse -> option string -> M SpeechHandler unit :=
  _handle_results transcriber set_transcriber (Some on_transcribed).

Definition handler_run : option string -> option string ->
    list StreamingRecognizeResponse -> option string -> M SpeechHandler unit :=
  run transcriber set_transcriber (Some on_transcribed).

(** The events of the thread of [run] when the channel turns out as
    [channel], the making of the client and of the configuration as
    [built], and the response stream produces [resps] and ends as
    [ending]. *)
Definition ending_event (ending : option string) : worker_event :=
  match ending with
  | Some name => ResponseError name
  | None => ResponseEnd
  end.

Definition thread_script (channel built : option string)
    (resps : list StreamingRecognizeResponse) (ending : option string) : list event :=
  Background ThreadRun ::
  match channel, built with
  | Some name, _ => [Background (ChannelFailed name)]
  | None, Some name => [Background (ConfigFailed name)]
  | None, None =>
      Background ChannelReady ::
      map (fun resp => Background (Response resp)) resps ++
      [Background (ending_event ending)]
  end.

(** The handler after [self.transcriber.stop()]. *)
Definition stopped (h : SpeechHandler) : SpeechHandler :=
  set_transcriber (set_stop_event true (set_is_started false (transcriber h))) h.

(** The handler with the thread of [run] at [x]. *)
Definition with_thread (x : thread_state) (h : SpeechHandler) : SpeechHandler :=
  set_transcriber (set_thread x (transcriber h)) h.

(** What one turn of the configuration loop makes of the transcriber when
    the message is a JSON object. *)
Definition configured_field (d : list (string * pyval)) (name : string)
    (t : Transcriber) : Transcriber :=
  match dict_get d name with
  | Some v => if is_none v then t else setattr name v t
  | None => t
  end.

Definition configured (d : list (string * pyval)) (t : Transcriber) : Transcriber :=
  configured_field d "punctuation"
    (configured_field d "encoding"
       (configured_field d "language"
          (configured_field d "rate" t))).

(** * Sample data *)

Definition frame_a : frame := [Byte.x61].
Definition frame_b : frame := [Byte.x62].
Definition empty_frame : frame := [].

Definition fresh : SpeechHandler := SpeechHandler_init 0 false.

(** A leading configuration message, and the worker getting connected. *)
Definition sample_config : pyval :=
  PDict [("rate", PInt 16000); ("language", PNone)].

Definition connect_by_config : list event :=
  [Message (Text (Some sample_config)) 0%Q;
   Background ThreadRun;
   Background ChannelReady].

Definition one_result (s : string) (final : bool) : StreamingRecognizeResponse :=
  {| error_code := OK;
     error_message := "";
     results := [{| alternatives := [{| transcript := s |}];
                    result_is_final := final |}] |}.

(** [code_pb2.CANCELLED] is 1. *)
Definition cancelled : StreamingRecognizeResponse :=
  {| error_code := 1; error_message := "x"; results := [] |}.

(** A session that took its first binary frame at 1000 and whose worker
    got connected afterwards. *)
Definition streaming_since_1000 : SpeechHandler :=
  state_after [Message (Binary frame_a) 1000%Q;
               Background ThreadRun;
               Background ChannelReady] fresh.

(** * More of the two modules *)

(** [n] calls of [QueuedAudioStream.read] in a row, with what each
    returned. *)
Fixpoint read_times (n : nat) : M QueuedAudioStream (list (option frame)) :=
  match n with
  | 0 => ret []
  | S n' => x <- read ;; xs <- read_times n' ;; ret (x :: xs)
  end.

(** What [read] returns for a frame at the head of the queue. *)
Definition as_read (data : frame) : option frame :=
  if frame_truthy data then Some data else None.

(** The values [json.loads] makes of null, true, false and numbers. *)
Definition json_scalar (data : pyval) : bool :=
  match data with
  | PNone | PBool _ | PInt _ | PFloat _ => true
  | _ => false
  end.

(** One of the four configuration names is an element of the list, or a
    substring of the string. *)
Definition names_a_field (data : pyval) : bool :=
  match data with
  | PList l =>
      existsb (fun name => existsb (is_str name) l)
        ["rate"; "language"; "encoding"; "punctuation"]
  | PStr s =>
      existsb (fun name => is_substring name s)
        ["rate"; "language"; "encoding"; "punctuation"]
  | _ => false
  end.

(** No request generator is suspended and none will be made: the thread
    of [run] is past the place where it makes one, and the generator is
    absent or has finished. *)
Definition no_generator (h : SpeechHandler) : Prop :=
  past_connecting h /\
  match request_stream (transcriber h) with
  | GenAbsent | GenFinished => True
  | _ => False
  end.



(** The transcriber after the loop of [on_message] has run for each of
    the objects in turn. *)
Definition configured_by (ds : list (list (string * pyval) * Q))
    (t : Transcriber) : Transcriber :=
  fold_left (fun t dn => configured (fst dn) t) ds t.

(** The results of one response that the callback passes on, when each
    has an alternative. *)
Definition relayed_results (rs : list RecognitionResult) : list TranscribedResult :=
  List.filter (fun x => text_truthy (text x))
    (flat_map (fun r => match transcribed_of r with
                        | Some x => [x]
                        | None => []
                        end) rs).

(** The events of the session of the handler at [a] among the events of
    the server. *)
Definition session_events (a : nat) (evs : list server_event) : list event :=
  flat_map (fun ev => match ev with
                      | Session b e => if Nat.eqb b a then [e] else []
                      | _ => []
                      end) evs.

(** The session has its streaming call behind it or open, and when the
    stop event is not set the test at the head of [on_message] holds with a
    float in [_start_time]. *)
Definition stalled (h : SpeechHandler) : Prop :=
  past_connecting h /\
  (_stop_event (transcriber h) = false ->
   is_started (transcriber h) = true /\
   match _start_time h with
   | PFloat x => Qeq_bool x 0 = false
   | _ => False
   end).

(** The event is not a direct call of [transcribe]. *)
Definition through_the_socket (ev : event) : Prop :=
  match ev with
  | Call (Transcribe _) => False
  | _ => True
  end.

(** A transcriber used on its own, with callbacks that act on it: what its
    worker does next. *)
Definition transcriber_step (on_connected : option (M Transcriber unit))
    (on_transcribing : option (frame -> M Transcriber unit))
    (on_transcribed : option (TranscribedResult -> M Transcriber unit)) :
    worker_event -> M Transcriber unit :=
  worker_step (fun t => t) (fun t _ => t) on_connected on_transcribing on_transcribed.

(** * Rules of the predicate transformer *)

Section WpRules.
Context {S : Type}.
Implicit Types s : S.

Lemma wp_ret {A} (a : A) s post : post s [] (Return a) -> wp (ret a) s post.
Proof. exact (fun H => H). Qed.

Lemma wp_raise {A} e s (post : S -> list action -> result A -> Prop) :
  post s [] (Raise e) -> wp (raise e) s post.
Proof. exact (fun H => H). Qed.

Lemma wp_get s post : post s [] (Return s) -> wp get s post.
Proof. exact (fun H => H). Qed.

Lemma wp_modify f s post : post (f s) [] (Return tt) -> wp (modify f) s post.
Proof. exact (fun H => H). Qed.

Lemma wp_emit a s post : post s [a] (Return tt) -> wp (emit a) s post.
Proof. exact (fun H => H). Qed.

Lemma wp_lift_result {A} (r : result A) s post :
  post s [] r -> wp (lift_result r) s post.
Proof. exact (fun H => H). Qed.

Lemma wp_bind {A B} (m : M S A) (k : A -> M S B) s post :
  wp m s (fun s1 out1 r =>
            match r with
            | Return a => wp (k a) s1 (fun s2 out2 r2 => post s2 (out1 ++ out2) r2)
            | Raise e => post s1 out1 (Raise e)
            end) ->
  wp (bind m k) s post.
Proof.
  unfold wp, bind. destruct (m s) as [[s1 out1] [a|e]]; [|exact (fun H => H)].
  destruct (k a s1) as [[s2 out2] r2]. exact (fun H => H).
Qed.

Lemma wp_attempt {A} (m : M S A) s post :
  wp m s (fun s1 out1 r => post s1 out1 (Return r)) -> wp (attempt m) s post.
Proof. unfold wp, attempt. destruct (m s) as [[s1 out1] r]. exact (fun H => H). Qed.

Lemma wp_try_finally {A} (body : M S A) fin s post :
  wp body s (fun s1 out1 r =>
               wp fin s1 (fun s2 out2 r2 =>
                            match r2 with
                            | Return _ => post s2 (out1 ++ out2) r
                            | Raise e => post s2 (out1 ++ out2) (Raise e)
                            end)) ->
  wp (try_finally body fin) s post.
Proof.
  unfold wp, try_finally. destruct (body s) as [[s1 out1] r].
  destruct (fin s1) as [[s2 out2] [u|e]]; exact (fun H => H).
Qed.

Lemma wp_zoom {T A} (view : S -> T) update (m : M T A) s post :
  wp m (view s) (fun t1 out1 r => post (update t1 s) out1 r) ->
  wp (zoom view update m) s post.
Proof. unfold wp, zoom. destruct (m (view s)) as [[t1 out1] r]. exact (fun H => H). Qed.

Lemma wp_run {A} (m : M S A) s post :
  wp m s post -> post (fst (fst (m s))) (snd (fst (m s))) (snd (m s)).
Proof. unfold wp. destruct (m s) as [[s1 out1] r]. exact (fun H => H). Qed.
End WpRules.

(** From the outcome of a run to its predicate and back. *)
Lemma wp_intro {S A : Type} (m : M S A) s (post : S -> list action -> result A -> Prop) :
  post (fst (fst (m s))) (snd (fst (m s))) (snd (m s)) -> wp m s post.
Proof. unfold wp. destruct (m s) as [[s1 out1] r]. exact (fun H => H). Qed.

Lemma wp_any {S A : Type} (m : M S A) s (post : S -> list action -> result A -> Prop) :
  (forall s1 out1 r, post s1 out1 r) -> wp m s post.
Proof. intros H. apply wp_intro, H. Qed.

Lemma wp_eq {S A : Type} (m : M S A) s s' out r :
  wp m s (fun s1 out1 r1 => s1 = s' /\ out1 = out /\ r1 = r) -> m s = (s', out, r).
Proof.
  unfold wp. destruct (m s) as [[s1 out1] r1]. intros (-> & -> & ->). reflexivity.
Qed.

(** * Symbolic execution of the methods *)

Ltac wp_simpl :=
  cbv beta iota;
  cbn [audio_stream encoding language punctuation rate timeout_secs interim_results
       is_connected is_started _thread_started _stop_event thread request_stream
       in_loop_body queue
       transcriber _id _start_time _recorded_audio_data request_host_is_local
       set_audio_stream set_encoding set_language set_punctuation set_rate
       set_is_connected set_is_started set_thread_started set_stop_event set_thread
       set_request_stream set_in_loop_body set_transcriber set_start_time set_recorded_audio_data
       negb andb app fst snd time_time] in *.

Lemma set_transcriber_same h : set_transcriber (transcriber h) h = h.
Proof. destruct h; reflexivity. Qed.

Lemma config_only_refl t : config_only t t.
Proof. repeat split. Qed.

Lemma config_only_trans t1 t2 t3 :
  config_only t1 t2 -> config_only t2 t3 -> config_only t1 t3.
Proof. unfold config_only. intuition congruence. Qed.

Lemma config_only_setattr name v t : config_only t (setattr name v t).
Proof.
  unfold setattr.
  repeat match goal with |- context [if ?b then _ else _] => destruct b end;
    repeat split.
Qed.

(** The timeout test never answers yes: when the guard holds, the
    subtraction or [total_seconds] raises. *)
Lemma wp_timed_out now h post :
  (truthy (_start_time h) && is_started (transcriber h) = false ->
   post h [] (Return false)) ->
  (truthy (_start_time h) && is_started (transcriber h) = true ->
   forall msg, post h [] (Raise (AttributeError msg)) /\
               post h [] (Raise (TypeError msg))) ->
  wp (timed_out now) h post.
Proof.
  intros Hoff Hon. unfold timed_out. apply wp_bind, wp_get. cbv beta iota.
  destruct (truthy (_start_time h) && is_started (transcriber h)).
  - specialize (Hon eq_refl).
    destruct (_start_time h); cbn; apply Hon.
  - apply wp_ret, Hoff. reflexivity.
Qed.

Lemma wp_configure_field data name h post :
  (forall t' r, config_only (transcriber h) t' -> lookup_outcome r ->
                post (set_transcriber t' h) [] r) ->
  wp (configure_field data name) h post.
Proof.
  intros Hpost.
  assert (Hsame : forall r, lookup_outcome r -> post h [] r).
  { intros r Hr. rewrite <- (set_transcriber_same h) at 1.
    apply Hpost; [apply config_only_refl | exact Hr]. }
  unfold configure_field, on_transcriber.
  apply wp_bind, wp_lift_result.
  destruct data; cbn [py_contains py_getitem];
    try (apply Hsame; exact I).
  - destruct (is_substring name s); [apply wp_bind, wp_lift_result|apply wp_ret];
      apply Hsame; exact I.
  - destruct (existsb (is_str name) l); [apply wp_bind, wp_lift_result|apply wp_ret];
      apply Hsame; exact I.
  - destruct (dict_get d name) as [v|]; [|apply wp_ret, Hsame; exact I].
    apply wp_bind, wp_lift_result.
    destruct (negb (is_none v)); [| apply wp_ret, Hsame; exact I].
    apply wp_zoom, wp_modify, Hpost; [apply config_only_setattr | exact I].
Qed.

Lemma wp_configure data names h post :
  (forall t' r, config_only (transcriber h) t' -> lookup_outcome r ->
                post (set_transcriber t' h) [] r) ->
  wp (for_each names (configure_field data)) h post.
Proof.
  revert h post. induction names as [|name names IH]; intros h post Hpost.
  - apply wp_ret. rewrite <- (set_transcriber_same h) at 1.
    apply Hpost; [apply config_only_refl | exact I].
  - cbn [for_each]. apply wp_bind, wp_configure_field. intros t1 [[]|e] H1 Hr.
    + apply IH. intros t2 r H2 Hr2. cbn [app].
      replace (set_transcriber t2 (set_transcriber t1 h)) with (set_transcriber t2 h)
        by (destruct h; reflexivity).
      apply Hpost; [|exact Hr2]. eapply config_only_trans; [exact H1|]. exact H2.
    + apply Hpost; [exact H1 | exact Hr].
Qed.

Lemma wp_relay rs (h : SpeechHandler) post :
  post h (fst (relay rs)) (snd (relay rs)) ->
  wp (for_each rs (fun result =>
        match alternatives result with
        | [] => raise (IndexError "list index out of range")
        | alt :: _ =>
            on_transcribed {| text := transcript alt;
                              is_final := result_is_final result |}
        end)) h post.
Proof.
  revert post. induction rs as [|r rs IH]; intros post Hpost; [exact Hpost|].
  cbn [for_each relay] in *. apply wp_bind.
  destruct (alternatives r) as [|alt alts]; [exact Hpost|].
  unfold on_transcribed at 1. cbn [text] in *.
  destruct (text_truthy (transcript alt)).
  - apply wp_emit. apply IH. exact Hpost.
  - apply wp_ret. apply IH. exact Hpost.
Qed.

Ltac wp_rule :=
  lazymatch goal with
  | |- wp (bind _ _) _ _ => apply wp_bind
  | |- wp (ret _) _ _ => apply wp_ret
  | |- wp (raise _) _ _ => apply wp_raise
  | |- wp get _ _ => apply wp_get
  | |- wp (modify _) _ _ => apply wp_modify
  | |- wp (emit _) _ _ => apply wp_emit
  | |- wp (lift_result _) _ _ => apply wp_lift_result
  | |- wp (attempt _) _ _ => apply wp_attempt
  | |- wp (try_finally _ _) _ _ => apply wp_try_finally
  | |- wp (zoom _ _ _) _ _ => apply wp_zoom
  | |- wp (timed_out _) _ _ =>
      apply wp_timed_out; [intros ? | intros ? ?; split]
  | |- wp (for_each _ (configure_field _)) _ _ =>
      let t := fresh "t" in
      let r := fresh "r" in
      let H := fresh "Hcfg" in
      let Hr := fresh "Hr" in
      apply wp_configure;
      intros t r H Hr; destruct t; cbv [config_only] in H; cbn in H;
      destruct H as (? & ? & ? & ? & ? & ? & ? & ? & ? & ?); subst;
      destruct r as [[]|[]]; cbn in Hr; try contradiction; clear Hr
  | |- wp (for_each (results _) _) _ _ => apply wp_relay
  | |- match match ?y with _ => _ end with _ => _ end => destruct y eqn:?
  | |- wp (if negb ?b then _ else _) _ _ => destruct b eqn:?
  | |- wp (if ?b then _ else _) _ _ => destruct b eqn:?
  | |- wp (match ?x with _ => _ end) _ _ => destruct x eqn:?
  | |- match ?x with _ => _ end => destruct x eqn:?
  end.

Ltac wp_unfold :=
  unfold exec, on_message, on_close_handler, handler_step, worker_step, thread_exit,
    request_stream_resume, request_stream_close, request_stream_turn,
    request_stream_test, request_stream_body, request_stream_enter, leave_with, handle_response, json_loads, transcribe,
    start, stop,
    Thread_start, on_transcribing, write, read, __exit__, self, on_transcriber,
    on_stream.

Ltac wp_auto := wp_unfold; repeat (wp_simpl; wp_rule); wp_simpl.

Ltac destruct_handler h :=
  destruct h as [[[?q] ?enc ?lang ?punct ?rt ?tmo ?ir ?ic ?ist ?ts ?se ?th ?gs ?lp]
                 ?id ?st ?rec ?loc].


(** * Reading the actions of two runs in a row *)

Lemma pushed_app o1 o2 : pushed (o1 ++ o2) = pushed o1 ++ pushed o2.
Proof. induction o1 as [|[] o1 IH]; cbn; congruence. Qed.

Lemma requests_app o1 o2 : requests (o1 ++ o2) = requests o1 ++ requests o2.
Proof. induction o1 as [|[] o1 IH]; cbn; congruence. Qed.

Lemma messages_app o1 o2 : messages (o1 ++ o2) = messages o1 ++ messages o2.
Proof. induction o1 as [|[] o1 IH]; cbn; congruence. Qed.

Lemma uncaught_app o1 o2 : uncaught (o1 ++ o2) = uncaught o1 ++ uncaught o2.
Proof. induction o1 as [|[] o1 IH]; cbn; congruence. Qed.

Lemma thread_starts_app o1 o2 :
  thread_starts (o1 ++ o2) = thread_starts o1 + thread_starts o2.
Proof. induction o1 as [|[] o1 IH]; cbn; congruence. Qed.

Lemma stream_opens_app o1 o2 :
  stream_opens (o1 ++ o2) = stream_opens o1 + stream_opens o2.
Proof. induction o1 as [|[] o1 IH]; cbn; congruence. Qed.

Lemma socket_closes_app o1 o2 :
  socket_closes (o1 ++ o2) = socket_closes o1 + socket_closes o2.
Proof. induction o1 as [|[] o1 IH]; cbn; congruence. Qed.

(** The inner loop of [_handle_results] writes messages and does nothing
    else. *)
Lemma relay_quiet rs :
  pushed (fst (relay rs)) = [] /\ requests (fst (relay rs)) = [] /\
  uncaught (fst (relay rs)) = [] /\ thread_starts (fst (relay rs)) = 0 /\
  stream_opens (fst (relay rs)) = 0 /\ socket_closes (fst (relay rs)) = 0.
Proof.
  induction rs as [|r rs IH]; cbn; [auto 10|].
  destruct (alternatives r) as [|alt alts]; cbn; [auto 10|].
  destruct (text_truthy (transcript alt)); cbn; exact IH.
Qed.

Lemma relay_raises rs e :
  snd (relay rs) = Raise e -> e = IndexError "list index out of range".
Proof.
  induction rs as [|r rs IH]; cbn; [discriminate|].
  destruct (alternatives r) as [|alt alts]; cbn; [congruence|exact IH].
Qed.

Ltac relay_outcome :=
  try match goal with
      | H : snd (relay _) = Raise _ |- _ => apply relay_raises in H; subst
      end.

Lemma relay_pushed rs : pushed (fst (relay rs)) = [].
Proof. apply relay_quiet. Qed.
Lemma relay_requests rs : requests (fst (relay rs)) = [].
Proof. apply relay_quiet. Qed.
Lemma relay_uncaught rs : uncaught (fst (relay rs)) = [].
Proof. apply relay_quiet. Qed.
Lemma relay_thread_starts rs : thread_starts (fst (relay rs)) = 0.
Proof. apply relay_quiet. Qed.
Lemma relay_stream_opens rs : stream_opens (fst (relay rs)) = 0.
Proof. apply relay_quiet. Qed.
Lemma relay_socket_closes rs : socket_closes (fst (relay rs)) = 0.
Proof. apply relay_quiet. Qed.

Create Rewrite HintDb actions.
#[local] Hint Rewrite pushed_app requests_app messages_app uncaught_app
  thread_starts_app stream_opens_app socket_closes_app
  relay_pushed relay_requests relay_uncaught relay_thread_starts relay_stream_opens
  relay_socket_closes app_nil_r : actions.

Ltac read_actions :=
  autorewrite with actions in *;
  cbn [pushed requests messages uncaught thread_starts stream_opens socket_closes
       app Nat.add] in *.

(** * One event *)

Lemma wp_step ev h (post : SpeechHandler -> list action -> Prop) :
  wp (exec ev) h (fun h' out r =>
    post h' (out ++ match r with Return _ => [] | Raise e => [Uncaught e] end)) ->
  post (fst (step ev h)) (snd (step ev h)).
Proof.
  unfold wp, step. destruct (exec ev h) as [[h' out] [u|e]]; cbn [fst snd].
  - rewrite app_nil_r. exact (fun H => H).
  - exact (fun H => H).
Qed.

Ltac step_cases ev h :=
  pattern (fst (step ev h)), (snd (step ev h)); apply wp_step; destruct_handler h;
  destruct ev as [[?|?] ?| |[| |?]|[]]; wp_auto.

(** Once the stop event is set it stays set and no thread is started; the
    only frame handed to the service is that of a turn of the request loop
    whose test had been made. *)
Lemma step_stopped ev h :
  _stop_event (transcriber h) = true ->
  _stop_event (transcriber (fst (step ev h))) = true /\
  thread_starts (snd (step ev h)) = 0 /\
  length (requests (snd (step ev h))) + in_flight (fst (step ev h)) <= in_flight h.
Proof.
  revert h.
  enough (forall h, _stop_event (transcriber h) = true ->
    (fun h' out => _stop_event (transcriber h') = true /\ thread_starts out = 0 /\
                   length (requests out) + in_flight h' <= in_flight h)
      (fst (step ev h)) (snd (step ev h)))
    as H by exact H.
  intros h Hstop. apply wp_step. destruct_handler h. cbn in Hstop. subst.
  destruct ev as [[?|?] ?| |[| |?]|[]]; wp_auto; read_actions;
    cbv [in_flight]; cbn in *; subst; cbn; auto with lia.
Qed.

Ltac frames :=
  unfold nonempty_frames in *;
  rewrite ?List.filter_app in *;
  cbn [List.filter app] in *;
  repeat match goal with
         | H : frame_truthy ?d = _ |- _ => rewrite ?H in *; clear H
         end;
  cbn [app] in *; rewrite ?app_nil_r in *.

Ltac unfold_invariants :=
  cbv [consistent guarded_thread started_past_connecting generator_after_connect
       past_connecting not_running can_start can_open timeout_guard] in *.

(** The states a session can be in are consistent. *)
Lemma step_consistent ev h : consistent h -> consistent (fst (step ev h)).
Proof.
  intros Hc. unfold_invariants.
  step_cases ev h; unfold_invariants; cbn in *; intuition (try congruence).
Qed.

(** The queue is a queue: what is put comes out in order, the empty byte
    string apart, unless the [with] block is left. *)
Lemma step_queue ev h :
  (request_stream (transcriber (fst (step ev h))) <> GenFinished ->
   nonempty_frames (queue (audio_stream (transcriber h))) ++
     nonempty_frames (pushed (snd (step ev h))) =
   requests (snd (step ev h)) ++
     nonempty_frames (queue (audio_stream (transcriber (fst (step ev h)))))) /\
  (exists rest,
     nonempty_frames (queue (audio_stream (transcriber h))) ++
       nonempty_frames (pushed (snd (step ev h))) =
     requests (snd (step ev h)) ++ rest).
Proof.
  step_cases ev h; read_actions; frames;
    (split; [intros; try congruence|eexists; try reflexivity]).
Qed.

(** A finished generator hands over nothing more. *)
Lemma step_generator_finished ev h :
  generator_after_connect h ->
  request_stream (transcriber h) = GenFinished ->
  request_stream (transcriber (fst (step ev h))) = GenFinished /\
  requests (snd (step ev h)) = [].
Proof.
  intros Hc Hg. unfold_invariants.
  step_cases ev h; read_actions; cbn in *; subst; intuition (try congruence).
Qed.

(** Threads started and streaming calls opened are paid for. *)
Lemma step_spawn ev h :
  thread_starts (snd (step ev h)) + can_start (fst (step ev h)) <= can_start h /\
  stream_opens (snd (step ev h)) + can_open (fst (step ev h)) <= can_open h.
Proof.
  step_cases ev h; read_actions; unfold_invariants; cbn; subst; try lia.
Qed.

Lemma step_no_double_start ev h :
  guarded_thread h -> ~ In double_start (uncaught (snd (step ev h))).
Proof.
  intros Hc. unfold_invariants.
  step_cases ev h; read_actions; unfold double_start; cbn in *; subst;
    relay_outcome;
    try tauto; try (let Hd := fresh in intros [Hd|[]]; discriminate Hd);
    try (exfalso; intuition congruence).
Qed.

(** In no state does a method reach [self.close()]. *)
Lemma step_no_close ev h : socket_closes (snd (step ev h)) = 0.
Proof. step_cases ev h; read_actions; reflexivity. Qed.

(** Whatever leaves the [with] block leaves the queue empty. *)
Lemma step_leaves_with ev h :
  request_stream (transcriber h) = GenInWith ->
  request_stream (transcriber (fst (step ev h))) = GenFinished ->
  queue (audio_stream (transcriber (fst (step ev h)))) = [].
Proof.
  intros Hg. step_cases ev h; cbn in *; subst; intros; congruence.
Qed.

(** After [stop], a thread that is not connecting never sets [is_started]
    again and opens no streaming call. *)
Lemma step_stopped_quiet ev h :
  _stop_event (transcriber h) = true ->
  is_started (transcriber h) = false ->
  thread (transcriber h) <> ThreadConnecting ->
  is_started (transcriber (fst (step ev h))) = false /\
  thread (transcriber (fst (step ev h))) <> ThreadConnecting /\
  stream_opens (snd (step ev h)) = 0.
Proof.
  intros Hs Hi Ht.
  step_cases ev h; read_actions; cbn in *; subst; intuition (try congruence).
Qed.


(** A thread that has exited relays nothing. *)
Lemma step_exited ev h r :
  thread (transcriber h) = ThreadExited r ->
  thread (transcriber (fst (step ev h))) = ThreadExited r /\
  messages (snd (step ev h)) = [].
Proof.
  intros Ht.
  step_cases ev h; read_actions; cbn in *; subst; intuition (try congruence).
Qed.

(** Once the thread is in its [try] block, [is_started] is never set
    again, and [_start_time] is not assigned while it is set. *)
Lemma step_past_connecting ev h :
  past_connecting h ->
  past_connecting (fst (step ev h)) /\
  (is_started (transcriber (fst (step ev h))) = true ->
   is_started (transcriber h) = true /\
   (_start_time h = PNone -> _start_time (fst (step ev h)) = PNone)).
Proof.
  intros Hp. unfold_invariants.
  step_cases ev h; cbn in *; subst; intuition (try congruence).
Qed.

Lemma step_guard_stays_off ev h :
  past_connecting h ->
  _start_time h = PNone \/ is_started (transcriber h) = false ->
  _start_time (fst (step ev h)) = PNone \/
  is_started (transcriber (fst (step ev h))) = false.
Proof.
  intros Hp Hg. unfold_invariants.
  step_cases ev h; cbn in *; subst; intuition (try congruence).
Qed.

(** * Sequences of events *)

Lemma state_after_cons ev evs h :
  state_after (ev :: evs) h = state_after evs (fst (step ev h)).
Proof.
  unfold state_after. cbn [steps]. destruct (step ev h) as [h1 out1].
  cbn [fst snd]. destruct (steps evs h1) as [h2 out2]. reflexivity.
Qed.

Lemma actions_of_cons ev evs h :
  actions_of (ev :: evs) h = snd (step ev h) ++ actions_of evs (fst (step ev h)).
Proof.
  unfold actions_of. cbn [steps]. destruct (step ev h) as [h1 out1].
  cbn [fst snd]. destruct (steps evs h1) as [h2 out2]. reflexivity.
Qed.

Lemma state_after_app evs1 evs2 h :
  state_after (evs1 ++ evs2) h = state_after evs2 (state_after evs1 h).
Proof.
  revert h. induction evs1 as [|ev evs1 IH]; intros h; [reflexivity|].
  cbn [app]. rewrite !state_after_cons. apply IH.
Qed.

Lemma actions_of_app evs1 evs2 h :
  actions_of (evs1 ++ evs2) h =
  actions_of evs1 h ++ actions_of evs2 (state_after evs1 h).
Proof.
  revert h. induction evs1 as [|ev evs1 IH]; intros h; [reflexivity|].
  cbn [app]. rewrite !actions_of_cons, state_after_cons, IH. apply app_assoc.
Qed.

Lemma init_consistent id local : consistent (SpeechHandler_init id local).
Proof. unfold_invariants. cbn. intuition congruence. Qed.

Lemma steps_consistent evs h : consistent h -> consistent (state_after evs h).
Proof.
  revert h. induction evs as [|ev evs IH]; intros h Hc; [exact Hc|].
  rewrite state_after_cons. apply IH, step_consistent, Hc.
Qed.

Lemma reachable_consistent h : reachable h -> consistent h.
Proof. intros (id & local & evs & ->). apply steps_consistent, init_consistent. Qed.

Lemma reachable_after evs h : reachable h -> reachable (state_after evs h).
Proof.
  intros (id & local & evs0 & ->). exists id, local, (evs0 ++ evs).
  symmetry. apply state_after_app.
Qed.

Lemma steps_stopped evs h :
  _stop_event (transcriber h) = true ->
  _stop_event (transcriber (state_after evs h)) = true /\
  thread_starts (actions_of evs h) = 0 /\
  length (requests (actions_of evs h)) + in_flight (state_after evs h) <= in_flight h.
Proof.
  revert h. induction evs as [|ev evs IH]; intros h Hs; [cbn; auto with lia|].
  rewrite state_after_cons, actions_of_cons.
  destruct (step_stopped ev h Hs) as (H1 & H2 & H3).
  destruct (IH _ H1) as (H4 & H5 & H6).
  read_actions. rewrite length_app, H2, H5. split; [exact H4|]. split; lia.
Qed.

(** After [stop], at most one more frame is handed to the service, and
    none when no turn of the request loop was under way. *)
Lemma steps_stopped_requests evs h :
  _stop_event (transcriber h) = true ->
  length (requests (actions_of evs h)) <= 1 /\
  (in_loop_body (transcriber h) = false -> requests (actions_of evs h) = []).
Proof.
  intros Hs. destruct (steps_stopped evs h Hs) as (_ & _ & H).
  unfold in_flight in H at 2. split.
  - destruct (in_loop_body (transcriber h)); lia.
  - intros Hl. rewrite Hl in H. apply length_zero_iff_nil. lia.
Qed.

Lemma steps_stopped_quiet evs h :
  _stop_event (transcriber h) = true ->
  is_started (transcriber h) = false ->
  thread (transcriber h) <> ThreadConnecting ->
  is_started (transcriber (state_after evs h)) = false /\
  thread (transcriber (state_after evs h)) <> ThreadConnecting /\
  stream_opens (actions_of evs h) = 0.
Proof.
  revert h. induction evs as [|ev evs IH]; intros h Hs Hi Ht; [auto|].
  rewrite state_after_cons, actions_of_cons.
  destruct (step_stopped_quiet ev h Hs Hi Ht) as (H1 & H2 & H3).
  destruct (step_stopped ev h Hs) as (H4 & _).
  destruct (IH _ H4 H1 H2) as (H5 & H6 & H7).
  read_actions. rewrite H3, H7. auto.
Qed.


Lemma steps_exited evs h r :
  thread (transcriber h) = ThreadExited r ->
  thread (transcriber (state_after evs h)) = ThreadExited r /\
  messages (actions_of evs h) = [].
Proof.
  revert h. induction evs as [|ev evs IH]; intros h Ht; [auto|].
  rewrite state_after_cons, actions_of_cons.
  destruct (step_exited ev h r Ht) as (H1 & H2).
  destruct (IH _ H1) as (H3 & H4).
  read_actions. rewrite H2, H4. auto.
Qed.

Lemma steps_spawn evs h :
  thread_starts (actions_of evs h) + can_start (state_after evs h) <= can_start h /\
  stream_opens (actions_of evs h) + can_open (state_after evs h) <= can_open h.
Proof.
  revert h. induction evs as [|ev evs IH]; intros h; [cbn; lia|].
  rewrite state_after_cons, actions_of_cons.
  destruct (step_spawn ev h) as (H1 & H2).
  destruct (IH (fst (step ev h))) as (H3 & H4).
  read_actions. lia.
Qed.

Lemma steps_no_double_start evs h :
  consistent h -> ~ In double_start (uncaught (actions_of evs h)).
Proof.
  revert h. induction evs as [|ev evs IH]; intros h Hc; [exact (fun H => H)|].
  rewrite actions_of_cons. read_actions. rewrite in_app_iff. intros [H|H].
  - apply (step_no_double_start ev h); [apply Hc | exact H].
  - apply (IH (fst (step ev h))); [apply step_consistent, Hc | exact H].
Qed.

Lemma steps_no_close evs h : socket_closes (actions_of evs h) = 0.
Proof.
  revert h. induction evs as [|ev evs IH]; intros h; [reflexivity|].
  rewrite actions_of_cons. read_actions. rewrite step_no_close, IH. reflexivity.
Qed.

Lemma steps_generator_finished evs h :
  consistent h ->
  request_stream (transcriber h) = GenFinished ->
  request_stream (transcriber (state_after evs h)) = GenFinished /\
  requests (actions_of evs h) = [].
Proof.
  revert h. induction evs as [|ev evs IH]; intros h Hc Hg; [auto|].
  rewrite state_after_cons, actions_of_cons.
  destruct (step_generator_finished ev h (proj2 (proj2 Hc)) Hg) as (H1 & H2).
  destruct (IH _ (step_consistent ev h Hc) H1) as (H3 & H4).
  read_actions. rewrite H2, H4. auto.
Qed.

Lemma steps_queue evs h :
  consistent h ->
  (request_stream (transcriber (state_after evs h)) <> GenFinished ->
   nonempty_frames (queue (audio_stream (transcriber h))) ++
     nonempty_frames (pushed (actions_of evs h)) =
   requests (actions_of evs h) ++
     nonempty_frames (queue (audio_stream (transcriber (state_after evs h))))) /\
  (exists rest,
     nonempty_frames (queue (audio_stream (transcriber h))) ++
       nonempty_frames (pushed (actions_of evs h)) =
     requests (actions_of evs h) ++ rest).
Proof.
  revert h. induction evs as [|ev evs IH]; intros h Hc.
  - cbn. rewrite app_nil_r. split; [reflexivity|]. eexists. reflexivity.
  - rewrite state_after_cons, actions_of_cons.
    destruct (step_queue ev h) as (Hq1 & rest1 & Hq2).
    destruct (IH _ (step_consistent ev h Hc)) as (Hi1 & rest2 & Hi2).
    read_actions. unfold nonempty_frames in *. rewrite List.filter_app.
    destruct (request_stream (transcriber (fst (step ev h)))) eqn:Hg.
    4: {
      destruct (steps_generator_finished evs _ (step_consistent ev h Hc) Hg)
        as (Hf1 & Hf2).
      rewrite Hf2, app_nil_r in *. split; [congruence|].
      exists (rest1 ++ List.filter frame_truthy (pushed (actions_of evs (fst (step ev h))))).
      rewrite app_assoc, Hq2, app_assoc. reflexivity. }
    all: assert (Hq : List.filter frame_truthy (queue (audio_stream (transcriber h))) ++
                 List.filter frame_truthy (pushed (snd (step ev h))) =
                 requests (snd (step ev h)) ++
                 List.filter frame_truthy
                   (queue (audio_stream (transcriber (fst (step ev h))))))
        by (apply Hq1; congruence).
    all: split;
      [intros Hn; rewrite app_assoc, Hq, <- !app_assoc; f_equal; apply Hi1, Hn
      |exists rest2; rewrite app_assoc, Hq, <- !app_assoc; f_equal; exact Hi2].
Qed.

Lemma steps_past_connecting evs h :
  past_connecting h ->
  past_connecting (state_after evs h) /\
  (is_started (transcriber (state_after evs h)) = true ->
   is_started (transcriber h) = true /\
   (_start_time h = PNone -> _start_time (state_after evs h) = PNone)).
Proof.
  revert h. induction evs as [|ev evs IH]; intros h Hp; [auto|].
  rewrite state_after_cons.
  destruct (step_past_connecting ev h Hp) as (H1 & H2).
  destruct (IH _ H1) as (H3 & H4).
  split; [exact H3|]. intros Hs. destruct (H4 Hs) as (H5 & H6).
  destruct (H2 H5) as (H7 & H8). auto.
Qed.

Lemma steps_guard_stays_off evs h :
  past_connecting h ->
  _start_time h = PNone \/ is_started (transcriber h) = false ->
  timeout_guard (state_after evs h) = false.
Proof.
  revert h. induction evs as [|ev evs IH]; intros h Hp Hg.
  - unfold timeout_guard. cbn. destruct Hg as [-> | ->]; [reflexivity|].
    apply andb_false_r.
  - rewrite state_after_cons. apply IH.
    + apply step_past_connecting, Hp.
    + apply step_guard_stays_off; assumption.
Qed.

(** * The request stream (C1) *)

(** One resumption of the generator with a frame at the head of the
    queue. *)
Lemma pull_head h d q :
  request_stream (transcriber h) = GenInWith ->
  _stop_event (transcriber h) = false ->
  queue (audio_stream (transcriber h)) = d :: q ->
  request_stream (transcriber (fst (step (Background Pull) h))) = GenInWith /\
  _stop_event (transcriber (fst (step (Background Pull) h))) = false /\
  queue (audio_stream (transcriber (fst (step (Background Pull) h)))) = q /\
  requests (snd (step (Background Pull) h)) = nonempty_frames [d].
Proof.
  intros Hg Hs Hq.
  pattern (fst (step (Background Pull) h)), (snd (step (Background Pull) h)).
  apply wp_step. destruct_handler h. cbn in Hg, Hs, Hq. subst.
  wp_auto; read_actions; frames; auto.
Qed.

(** As many resumptions as there are frames in the queue hand over every
    frame of it that is not empty, in order. *)
Lemma pulls_drain q : forall h,
  request_stream (transcriber h) = GenInWith ->
  _stop_event (transcriber h) = false ->
  queue (audio_stream (transcriber h)) = q ->
  requests (actions_of (repeat (Background Pull) (length q)) h) = nonempty_frames q /\
  queue (audio_stream
           (transcriber (state_after (repeat (Background Pull) (length q)) h))) = [].
Proof.
  induction q as [|d q IH]; intros h Hg Hs Hq; [auto|].
  cbn [length repeat]. rewrite actions_of_cons, state_after_cons.
  destruct (pull_head h d q Hg Hs Hq) as (H1 & H2 & H3 & H4).
  destruct (IH _ H1 H2 H3) as (H5 & H6).
  read_actions. rewrite H4, H5. split; [|exact H6].
  unfold nonempty_frames. cbn [List.filter]. destruct (frame_truthy d); reflexivity.
Qed.

(** C1, as stated, fails: the frames a, the empty byte string and b are
    pushed, the generator is resumed until the queue is empty and is still
    inside its [with] block (nothing was cleared), and the service got a and
    b only. *)
Lemma C1_empty_frame_is_dropped :
  let evs := connect_by_config ++
             [Message (Binary frame_a) 1%Q;
              Message (Binary empty_frame) 2%Q;
              Message (Binary frame_b) 3%Q;
              Background Pull; Background Pull; Background Pull; Background Pull] in
  pushed (actions_of evs fresh) = [frame_a; empty_frame; frame_b] /\
  requests (actions_of evs fresh) = [frame_a; frame_b] /\
  requests (actions_of evs fresh) <> pushed (actions_of evs fresh) /\
  request_stream (transcriber (state_after evs fresh)) = GenInWith /\
  queue (audio_stream (transcriber (state_after evs fresh))) = [].
Proof. vm_compute. repeat split; discriminate. Qed.

(** C1, amended: in every interleaving of the session's events, the
    frames handed to the service followed by the non-empty frames still in
    the queue are the non-empty frames pushed, in the order of the pushes, as
    long as the [with] block of the request generator has not been left; in
    any case the frames handed over are a prefix of the non-empty frames
    pushed.  A frame that is the empty byte string is taken off the queue and
    not handed over.  While the generator is inside its [with] block and the
    stop event is not set, as many resumptions as the queue has frames hand
    over all its non-empty frames and leave it empty. *)
Theorem request_stream_fifo :
  (forall id local evs,
     let h := state_after evs (SpeechHandler_init id local) in
     let out := actions_of evs (SpeechHandler_init id local) in
     (request_stream (transcriber h) <> GenFinished ->
      requests out ++ nonempty_frames (queue (audio_stream (transcriber h))) =
      nonempty_frames (pushed out)) /\
     (exists rest, nonempty_frames (pushed out) = requests out ++ rest)) /\
  (forall h,
     request_stream (transcriber h) = GenInWith ->
     _stop_event (transcriber h) = false ->
     let pulls := repeat (Background Pull)
                    (length (queue (audio_stream (transcriber h)))) in
     requests (actions_of pulls h) =
       nonempty_frames (queue (audio_stream (transcriber h))) /\
     queue (audio_stream (transcriber (state_after pulls h))) = []).
Proof.
  split.
  - intros id local evs h out.
    destruct (steps_queue evs (SpeechHandler_init id local) (init_consistent id local))
      as (H1 & rest & H2).
    cbn [SpeechHandler_init transcriber Transcriber_init audio_stream
         QueuedAudioStream_init queue nonempty_frames List.filter app] in H1, H2.
    split; [intros Hn; symmetry; apply H1, Hn | exists rest; exact H2].
  - intros h Hg Hs. apply pulls_drain; auto.
Qed.

Lemma request_stream_fifo_witness :
  let evs := connect_by_config ++
             [Message (Binary frame_a) 1%Q;
              Message (Binary empty_frame) 2%Q;
              Message (Binary frame_b) 3%Q;
              Background Pull] in
  requests (actions_of evs fresh) ++
    nonempty_frames (queue (audio_stream (transcriber (state_after evs fresh)))) =
  nonempty_frames (pushed (actions_of evs fresh)) /\
  requests (actions_of (repeat (Background Pull) 2) (state_after evs fresh)) =
    [frame_b].
Proof.
  intros evs. split.
  - apply (proj1 request_stream_fifo 0 false evs). vm_compute. discriminate.
  - apply (proj2 request_stream_fifo (state_after evs fresh)); vm_compute; reflexivity.
Defined.

(** * Results and errors from the service (C2, C3) *)

(** One response without an error code, seen by [_handle_results]. *)
Lemma handle_response_ok resp h :
  error_code resp = OK ->
  handle_response transcriber set_transcriber (Some on_transcribed) resp h =
  (h, fst (relay (results resp)), snd (relay (results resp))).
Proof.
  intros Hok. apply wp_eq. unfold handle_response. rewrite Hok. cbn [Z.eqb OK negb].
  apply wp_relay. auto.
Qed.

(** One response with an error code. *)
Lemma handle_response_error resp h :
  error_code resp <> OK ->
  handle_response transcriber set_transcriber (Some on_transcribed) resp h =
  (set_transcriber (set_stop_event true (set_is_started false (transcriber h))) h,
   [],
   Raise (RuntimeError (String.append "Speech API Error: " (error_message resp)))).
Proof.
  intros Hne. unfold handle_response.
  destruct (error_code resp =? OK)%Z eqn:Hc; [apply Z.eqb_eq in Hc; contradiction|].
  reflexivity.
Qed.

Lemma relay_well_formed rs :
  Forall (fun r => alternatives r <> []) rs ->
  relay rs =
  (map WriteMessage
     (map result_payload
        (List.filter (fun x => text_truthy (text x))
           (flat_map (fun r => match transcribed_of r with
                               | Some x => [x]
                               | None => []
                               end) rs))),
   Return tt).
Proof.
  induction 1 as [|r rs Hr Hrs IH]; [reflexivity|].
  cbn [relay flat_map]. unfold transcribed_of at 1.
  destruct (alternatives r) as [|alt alts]; [contradiction|].
  rewrite IH. cbn [fst snd app List.filter text].
  destruct (text_truthy (transcript alt)); reflexivity.
Qed.

Lemma well_formed_cons resp resps :
  well_formed (resp :: resps) ->
  error_code resp = OK /\
  Forall (fun r => alternatives r <> []) (results resp) /\
  well_formed resps.
Proof.
  unfold well_formed, result_events. cbn [flat_map]. intros [H1 H2].
  apply Forall_app in H2 as [Ha Hb]. inversion H1; subst. auto.
Qed.

Lemma relayed_cons resp resps :
  relayed (resp :: resps) = relayed [resp] ++ relayed resps.
Proof.
  unfold relayed, transcribed, result_events. cbn [flat_map].
  rewrite app_nil_r, flat_map_app, List.filter_app. reflexivity.
Qed.

Lemma handle_results_relayed resps : forall h,
  well_formed resps ->
  handler_handle_results resps None h =
  (h, map WriteMessage (map result_payload (relayed resps)), Return tt).
Proof.
  induction resps as [|resp resps IH]; intros h Hwf; [reflexivity|].
  apply well_formed_cons in Hwf as (Hok & Halt & Hwf).
  unfold handler_handle_results in *. cbn [_handle_results]. unfold bind.
  rewrite (handle_response_ok resp h Hok), (relay_well_formed _ Halt).
  cbn [fst snd]. rewrite (IH h Hwf), relayed_cons, !map_app.
  unfold relayed at 2, transcribed, result_events. cbn [flat_map].
  rewrite app_nil_r. reflexivity.
Qed.

Lemma responses_relayed resps : forall h,
  thread (transcriber h) = ThreadInTry ->
  well_formed resps ->
  steps (map (fun resp => Background (Response resp)) resps) h =
  (h, map WriteMessage (map result_payload (relayed resps))).
Proof.
  induction resps as [|resp resps IH]; intros h Ht Hwf; [reflexivity|].
  apply well_formed_cons in Hwf as (Hok & Halt & Hwf).
  cbn [map steps].
  assert (Hstep : step (Background (Response resp)) h =
                  (h, map WriteMessage (map result_payload (relayed [resp])))).
  { unfold step, exec, handler_step, worker_step.
    unfold bind at 1. unfold self at 1, zoom at 1. cbn [get fst snd].
    rewrite set_transcriber_same, Ht. cbn [app].
    unfold bind, attempt. rewrite (handle_response_ok resp h Hok).
    rewrite (relay_well_formed _ Halt). cbn [fst snd ret app].
    rewrite !app_nil_r.
    unfold relayed, transcribed, result_events. cbn [flat_map].
    rewrite app_nil_r. reflexivity. }
  rewrite Hstep, (IH h Ht Hwf), (relayed_cons resp resps), !map_app. reflexivity.
Qed.

Lemma messages_written l : messages (map WriteMessage l) = l.
Proof. induction l as [|x l IH]; cbn; congruence. Qed.

(** C2, as stated, fails: the service sends one result event whose text
    is empty and the session writes no message. *)
Lemma C2_empty_text_not_relayed :
  let evs := connect_by_config ++ [Background (Response (one_result "" false))] in
  length (result_events [one_result "" false]) = 1 /\
  messages (actions_of evs fresh) = [].
Proof. vm_compute. auto. Qed.

(** C2, amended: for every sequence of responses without an error code
    whose results all have an alternative, the session writes one message
    {"text": text, "isFinal": is_final} for each result event whose text is
    not empty, in the order the events arrived, and nothing for a result
    event whose text is empty; [_handle_results] returns normally and changes
    no state.  The same holds when the responses arrive one event at a time
    while the thread of [run] is in its [try] block. *)
Theorem results_relayed (resps : list StreamingRecognizeResponse) (h : SpeechHandler) :
  well_formed resps ->
  handler_handle_results resps None h =
    (h, map WriteMessage (map result_payload (relayed resps)), Return tt) /\
  (thread (transcriber h) = ThreadInTry ->
   let evs := map (fun resp => Background (Response resp)) resps in
   state_after evs h = h /\
   messages (actions_of evs h) = map result_payload (relayed resps)) /\
  (forall x, In x (relayed resps) ->
     result_payload x !! "text" = Some (PStr (text x)) /\
     result_payload x !! "isFinal" = Some (PBool (is_final x)) /\
     text x <> "").
Proof.
  intros Hwf. split; [apply handle_results_relayed, Hwf|]. split.
  - intros Ht evs. unfold state_after, actions_of, evs.
    rewrite (responses_relayed resps h Ht Hwf). cbn [fst snd].
    split; [reflexivity | apply messages_written].
  - intros x Hx. unfold relayed in Hx. apply List.filter_In in Hx as [_ Hx].
    unfold result_payload. split; [|split].
    + apply lookup_insert_eq.
    + rewrite lookup_insert_ne by discriminate. apply lookup_insert_eq.
    + intros Hempty. rewrite Hempty in Hx. discriminate Hx.
Qed.

Lemma results_relayed_witness :
  let resps := [one_result "hi" false; one_result "hi there" true] in
  handler_handle_results resps None fresh =
  (fresh,
   [WriteMessage (result_payload {| text := "hi"; is_final := false |});
    WriteMessage (result_payload {| text := "hi there"; is_final := true |})],
   Return tt).
Proof.
  intros resps.
  refine (proj1 (results_relayed resps fresh _)).
  split; repeat constructor; discriminate.
Defined.

(** * [run] as a whole and [run] event by event *)

Lemma thread_exit_eq r h :
  thread_exit transcriber set_transcriber r h =
  (with_thread (ThreadExited r) h,
   match r with Return _ => [] | Raise e => [Uncaught e] end,
   Return tt).
Proof. destruct r as [[]|e]; reflexivity. Qed.

Lemma handle_response_with_thread x resp h :
  handle_response transcriber set_transcriber (Some on_transcribed) resp
    (with_thread x h) =
  match handle_response transcriber set_transcriber (Some on_transcribed) resp h with
  | (h1, out, r) => (with_thread x h1, out, r)
  end.
Proof.
  destruct (Z.eq_dec (error_code resp) OK) as [Hok|Hne].
  - rewrite !handle_response_ok by exact Hok. reflexivity.
  - rewrite !handle_response_error by exact Hne. destruct_handler h. reflexivity.
Qed.

Lemma handle_results_with_thread x resps ending : forall h,
  handler_handle_results resps ending (with_thread x h) =
  match handler_handle_results resps ending h with
  | (h1, out, r) => (with_thread x h1, out, r)
  end.
Proof.
  unfold handler_handle_results.
  induction resps as [|resp resps IH]; intros h.
  - destruct ending; reflexivity.
  - cbn [_handle_results]. unfold bind. rewrite handle_response_with_thread.
    destruct (handle_response _ _ _ resp h) as [[h1 out1] [[]|e]]; [|reflexivity].
    rewrite IH.
    destruct (_handle_results _ _ _ resps ending h1) as [[h2 out2] r2]. reflexivity.
Qed.

Lemma handle_response_thread resp h :
  thread (transcriber
            (fst (fst (handle_response transcriber set_transcriber (Some on_transcribed)
                         resp h)))) =
  thread (transcriber h).
Proof.
  destruct (Z.eq_dec (error_code resp) OK) as [Hok|Hne].
  - rewrite handle_response_ok by exact Hok. reflexivity.
  - rewrite handle_response_error by exact Hne. reflexivity.
Qed.

(** A thread that has exited ignores what the stream still produces. *)
Lemma exited_ignores resps ending h r :
  thread (transcriber h) = ThreadExited r ->
  steps (map (fun resp => Background (Response resp)) resps ++
         [Background (ending_event ending)]) h = (h, []).
Proof.
  intros Ht. induction resps as [|resp resps IH]; cbn [map app steps].
  - assert (Hs : step (Background (ending_event ending)) h = (h, [])).
    { destruct_handler h. cbn in Ht. subst. destruct ending; reflexivity. }
    rewrite Hs. reflexivity.
  - assert (Hs : step (Background (Response resp)) h = (h, [])).
    { destruct_handler h. cbn in Ht. subst. reflexivity. }
    rewrite Hs, IH. reflexivity.
Qed.

Lemma step_response resp h :
  thread (transcriber h) = ThreadInTry ->
  step (Background (Response resp)) h =
  match handle_response transcriber set_transcriber (Some on_transcribed) resp h with
  | (h1, out, Return _) => (h1, out)
  | (h1, out, Raise e) =>
      (with_thread (ThreadExited (Raise e)) (stopped h1), out ++ [Uncaught e])
  end.
Proof.
  intros Ht. unfold step, exec, handler_step, worker_step.
  unfold bind at 1. unfold self at 1, zoom at 1. cbn [get fst snd].
  rewrite set_transcriber_same, Ht. cbn [app].
  unfold bind at 1, attempt.
  destruct (handle_response _ _ _ resp h) as [[h1 out1] [[]|e]].
  - cbn. rewrite ?app_nil_r. reflexivity.
  - destruct_handler h1. cbn. rewrite ?app_nil_r. reflexivity.
Qed.

Lemma step_ending ending h :
  thread (transcriber h) = ThreadInTry ->
  step (Background (ending_event ending)) h =
  match ending with
  | None => (with_thread (ThreadExited (Return tt)) (stopped h), [])
  | Some name =>
      (with_thread (ThreadExited (Raise (ExternalError name))) (stopped h),
       [Uncaught (ExternalError name)])
  end.
Proof.
  intros Ht. destruct_handler h. cbn in Ht. subst. destruct ending; reflexivity.
Qed.

(** The [try] block of [run], event by event. *)
Lemma in_try_events resps ending : forall h,
  thread (transcriber h) = ThreadInTry ->
  steps (map (fun resp => Background (Response resp)) resps ++
         [Background (ending_event ending)]) h =
  match handler_handle_results resps ending h with
  | (h1, out, r) =>
      (with_thread (ThreadExited r) (stopped h1),
       out ++ match r with Return _ => [] | Raise e => [Uncaught e] end)
  end.
Proof.
  unfold handler_handle_results.
  induction resps as [|resp resps IH]; intros h Ht.
  - cbn [map app steps _handle_results]. rewrite (step_ending ending h Ht).
    destruct ending; reflexivity.
  - cbn [map app steps _handle_results]. rewrite (step_response resp h Ht).
    unfold bind. pose proof (handle_response_thread resp h) as Hsame.
    destruct (handle_response _ _ _ resp h) as [[h1 out1] [[]|e]].
    + cbn [fst] in Hsame. rewrite IH by congruence.
      destruct (_handle_results _ _ _ resps ending h1) as [[h2 out2] r2].
      rewrite app_assoc. reflexivity.
    + rewrite (exited_ignores resps ending _ (Raise e)) by reflexivity.
      rewrite app_nil_r. reflexivity.
Qed.

(** The thread of [run], from the first instruction to the last, does
    what its events do one after the other. *)
Lemma thread_main_events channel built resps ending h :
  thread (transcriber h) = ThreadStarted ->
  steps (thread_script channel built resps ending) h =
  fst (handler_thread_main channel built resps ending h).
Proof.
  intros Ht.
  enough (wp (handler_thread_main channel built resps ending) h
            (fun s out _ =>
               steps (thread_script channel built resps ending) h = (s, out)))
    as Hwp.
  { apply wp_run in Hwp. rewrite Hwp.
    destruct (handler_thread_main channel built resps ending h) as [[s1 out1] r].
    reflexivity. }
  destruct_handler h. cbn in Ht. subst.
  unfold handler_thread_main, thread_main, run, thread_script.
  destruct se.
  - (* the stop event is set when the thread begins *)
    wp_auto. cbn [steps].
    match goal with
    | |- context [step (Background ThreadRun) ?h0] =>
        replace (step (Background ThreadRun) h0)
          with (with_thread (ThreadExited (Return tt)) h0, @nil action)
          by reflexivity
    end.
    destruct channel as [name|]; [reflexivity|].
    destruct built as [name|]; [reflexivity|].
    cbn [steps].
    match goal with
    | |- context [step (Background ChannelReady) ?h0] =>
        replace (step (Background ChannelReady) h0) with (h0, @nil action)
          by reflexivity
    end.
    rewrite (exited_ignores resps ending _ (Return tt)) by reflexivity.
    reflexivity.
  - destruct channel as [name|]; [wp_auto; reflexivity|].
    destruct built as [name|]; [wp_auto; reflexivity|].
    wp_unfold. repeat (wp_simpl; wp_rule). wp_simpl.
    apply wp_intro.
    match goal with
    | |- context [_handle_results _ _ _ resps ending ?h0] =>
        set (h' := h0);
        pose proof (in_try_events resps ending (with_thread ThreadInTry h') eq_refl)
          as Htry;
        rewrite handle_results_with_thread in Htry;
        unfold handler_handle_results in Htry;
        destruct (_handle_results transcriber set_transcriber (Some on_transcribed)
                    resps ending h') as [[h1 out1] r1]
    end.
    cbn [fst snd]. wp_auto.
    all: cbn [steps];
      match goal with
      | |- context [step (Background ThreadRun) ?h0] =>
          replace (step (Background ThreadRun) h0)
            with (with_thread ThreadConnecting h0, @nil action) by reflexivity
      end;
      cbn [steps];
      match goal with
      | |- context [step (Background ChannelReady) ?h0] =>
          replace (step (Background ChannelReady) h0)
            with (with_thread ThreadInTry h',
                  [StreamingRecognize (streaming_config (transcriber h'))])
            by reflexivity
      end;
      rewrite Htry; destruct_handler h1;
      cbn [app]; rewrite ?app_nil_r, <- ?app_assoc; reflexivity.
Qed.

(** C3, as stated, fails: on an error response the failure leaves [run]
    as a RuntimeError that nothing catches, and nothing is delivered to the
    session: the thread dies of the exception, no callback is invoked and no
    message is written.  And a buffered frame can still be forwarded after
    the error: the request generator runs in the consumer's thread, and a
    turn of its loop that has passed the test of the stop event when [stop]
    is called goes on to read a frame and to yield it. *)
Lemma C3_error_escapes_the_worker :
  let evs := connect_by_config ++ [Background (Response cancelled)] in
  let race := connect_by_config ++
              [Message (Binary frame_a) 1%Q; Background LoopTest;
               Background (Response cancelled)] in
  uncaught (actions_of evs fresh) = [RuntimeError "Speech API Error: x"] /\
  thread (transcriber (state_after evs fresh)) =
    ThreadExited (Raise (RuntimeError "Speech API Error: x")) /\
  messages (actions_of evs fresh) = [] /\
  socket_closes (actions_of evs fresh) = 0 /\
  _stop_event (transcriber (state_after race fresh)) = true /\
  requests (actions_of race fresh) = [] /\
  requests (actions_of [Background Pull] (state_after race fresh)) = [frame_a].
Proof. vm_compute. auto 10. Qed.

(** C3, amended: for every response with an error code other than OK
    that arrives while the thread of [run] is in its [try] block, the worker
    calls [stop] (the stop event is set, [is_started] is false, the status is
    Stopped) and raises RuntimeError('Speech API Error: ' + message), which
    leaves [run] uncaught and ends the thread; no error event is delivered to
    the session.  From then on, under every continuation, the stop event
    stays set, the status stays Stopped, no result is relayed, and at most
    one more frame is handed to the service: the frame of a turn of the
    request loop that had passed its test of the stop event before the
    response arrived, and none when no such turn was under way. *)
Theorem error_response_stops (resp : StreamingRecognizeResponse) (h : SpeechHandler) :
  thread (transcriber h) = ThreadInTry ->
  error_code resp <> OK ->
  let e := RuntimeError (String.append "Speech API Error: " (error_message resp)) in
  let h' := fst (step (Background (Response resp)) h) in
  snd (step (Background (Response resp)) h) = [Uncaught e] /\
  _stop_event (transcriber h') = true /\
  is_started (transcriber h') = false /\
  status_of (transcriber h') = Stopped /\
  thread (transcriber h') = ThreadExited (Raise e) /\
  forall evs,
    length (requests (actions_of evs h')) <= 1 /\
    (in_loop_body (transcriber h) = false -> requests (actions_of evs h') = []) /\
    messages (actions_of evs h') = [] /\
    _stop_event (transcriber (state_after evs h')) = true /\
    status_of (transcriber (state_after evs h')) = Stopped.
Proof.
  intros Ht Hne e h'.
  assert (Hstep : step (Background (Response resp)) h =
    (set_transcriber
       (set_thread (ThreadExited (Raise e))
          (set_stop_event true (set_is_started false
             (set_stop_event true (set_is_started false (transcriber h)))))) h,
     [Uncaught e])).
  { unfold step, exec, handler_step, worker_step.
    unfold bind at 1. unfold self at 1, zoom at 1. cbn [get fst snd].
    rewrite set_transcriber_same, Ht. cbn [app].
    unfold bind at 1, attempt. rewrite (handle_response_error resp h Hne).
    destruct_handler h. reflexivity. }
  subst h'. rewrite Hstep. cbn [fst snd].
  split; [reflexivity|]. split; [reflexivity|]. split; [reflexivity|].
  split; [reflexivity|]. split; [reflexivity|].
  intros evs.
  set (h1 := set_transcriber
               (set_thread (ThreadExited (Raise e))
                  (set_stop_event true (set_is_started false
                     (set_stop_event true (set_is_started false (transcriber h))))))
               h).
  assert (Hs : _stop_event (transcriber h1) = true) by reflexivity.
  assert (Hi : is_started (transcriber h1) = false) by reflexivity.
  assert (Hx : thread (transcriber h1) <> ThreadConnecting) by discriminate.
  destruct (steps_stopped_requests evs h1 Hs) as (Hr1 & Hr0).
  destruct (steps_stopped evs h1 Hs) as (Hs' & _ & _).
  destruct (steps_stopped_quiet evs h1 Hs Hi Hx) as (Hi' & _ & _).
  split; [exact Hr1|]. split.
  { intros Hl. apply Hr0. subst h1. destruct_handler h. exact Hl. }
  split; [eapply steps_exited; reflexivity|]. split; [exact Hs'|].
  unfold status_of. rewrite Hi', Hs'. reflexivity.
Qed.

Lemma error_response_stops_witness :
  let h := state_after (connect_by_config ++
                        [Message (Binary frame_a) 1%Q; Message (Binary frame_b) 2%Q])
             fresh in
  snd (step (Background (Response cancelled)) h) =
    [Uncaught (RuntimeError "Speech API Error: x")] /\
  requests (actions_of [Background Pull; Background Pull]
              (fst (step (Background (Response cancelled)) h))) = [].
Proof.
  intros h.
  assert (Ht : thread (transcriber h) = ThreadInTry) by reflexivity.
  assert (Hne : error_code cancelled <> OK) by discriminate.
  split.
  - exact (proj1 (error_response_stops cancelled h Ht Hne)).
  - destruct (error_response_stops cancelled h Ht Hne) as (_ & _ & _ & _ & _ & Hall).
    destruct (Hall [Background Pull; Background Pull]) as (_ & Hnone & _).
    apply Hnone. reflexivity.
Defined.

(** * The timeout test of on_message (C4) *)

(** C4, on the code: whenever the guard of the timeout test holds,
    [on_message] raises before it compares anything, whatever the elapsed
    time; it neither closes the socket nor processes the frame, and the
    state is unchanged.  With [_start_time] a float, as [time.time()] makes
    it, the exception is the AttributeError of [total_seconds]. *)
Theorem timeout_test_raises (msg : ws_message) (now : Q) (h : SpeechHandler) :
  timeout_guard h = true ->
  (exists e, on_message msg now h = (h, [], Raise e)) /\
  (forall x, _start_time h = PFloat x ->
     on_message msg now h = (h, [], Raise float_has_no_total_seconds)).
Proof.
  unfold timeout_guard. intros Hg. split.
  - unfold on_message, bind at 1, timed_out, bind at 1. cbn [get]. rewrite Hg.
    destruct (_start_time h); cbn; eauto.
  - intros x Hx. unfold on_message, bind at 1, timed_out, bind at 1. cbn [get].
    rewrite Hg, Hx. reflexivity.
Qed.

Lemma timeout_test_raises_witness :
  on_message (Binary frame_b) 1061%Q streaming_since_1000 =
    (streaming_since_1000, [], Raise float_has_no_total_seconds) /\
  on_message (Binary frame_b) 1059%Q streaming_since_1000 =
    (streaming_since_1000, [], Raise float_has_no_total_seconds).
Proof.
  assert (Hg : timeout_guard streaming_since_1000 = true) by reflexivity.
  assert (Hs : _start_time streaming_since_1000 = PFloat 1000%Q) by reflexivity.
  split.
  - exact (proj2 (timeout_test_raises (Binary frame_b) 1061%Q _ Hg) _ Hs).
  - exact (proj2 (timeout_test_raises (Binary frame_b) 1059%Q _ Hg) _ Hs).
Defined.

(** * start and stop (C5, C6) *)

(** What [start] does, by cases on the two flags and the thread. *)
Lemma start_cases t :
  start t =
  if _thread_started t then (t, [], Return tt)
  else if _stop_event t then (set_thread_started true t, [], Return tt)
  else match thread t with
       | ThreadInitial =>
           (set_thread ThreadStarted (set_thread_started true t), [ThreadStart],
            Return tt)
       | _ => (set_thread_started true t, [], Raise double_start)
       end.
Proof.
  destruct t as [q enc lang punct rt tmo ir ic ist ts se th gs lp].
  destruct ts, se, th; reflexivity.
Qed.

Lemma start_again t :
  start (fst (fst (start t))) = (fst (fst (start t)), [], Return tt).
Proof.
  rewrite (start_cases t).
  destruct t as [q enc lang punct rt tmo ir ic ist ts se th gs lp].
  destruct ts, se, th; reflexivity.
Qed.

Lemma start_times_started n t :
  _thread_started t = true -> start_times n t = (t, [], Return tt).
Proof.
  intros Hs. induction n as [|n IH]; [reflexivity|].
  unfold start_times in *. cbn [repeat for_each]. unfold bind.
  rewrite (start_cases t), Hs, IH. reflexivity.
Qed.

Lemma calls_of_start_started n h :
  _thread_started (transcriber h) = true ->
  steps (repeat (Call Start) n) h = (h, []).
Proof.
  intros Hs. induction n as [|n IH]; [reflexivity|].
  cbn [repeat steps].
  assert (H1 : step (Call Start) h = (h, []))
    by (destruct_handler h; cbn in Hs; subst; reflexivity).
  rewrite H1, IH. reflexivity.
Qed.

(** C5: a call of [start] that follows a call of [start] changes nothing,
    starts nothing and raises nothing, in whatever state the first call was
    made; any number of calls in a row on a new transcriber start exactly one
    thread, without an error, and take the status from NotStarted to
    Connecting; under every interleaving of the events of a
    session at most one thread is started, at most one streaming call is
    opened, and [threading.Thread.start] is never called a second time; and
    when the thread runs and gets its channel after any number of calls of
    [start], exactly one thread has been started and exactly one streaming
    call opened. *)
Theorem start_once :
  (forall t, start (fst (fst (start t))) = (fst (fst (start t)), [], Return tt)) /\
  (forall n,
     start_times (S n) Transcriber_init =
     (set_thread ThreadStarted (set_thread_started true Transcriber_init),
      [ThreadStart], Return tt) /\
     status_of Transcriber_init = NotStarted /\
     status_of (fst (fst (start_times (S n) Transcriber_init))) = Connecting) /\
  (forall id local evs,
     thread_starts (actions_of evs (SpeechHandler_init id local)) <= 1 /\
     stream_opens (actions_of evs (SpeechHandler_init id local)) <= 1 /\
     ~ In double_start (uncaught (actions_of evs (SpeechHandler_init id local)))) /\
  (forall id local n,
     let evs := repeat (Call Start) (S n) ++
                [Background ThreadRun; Background ChannelReady] in
     thread_starts (actions_of evs (SpeechHandler_init id local)) = 1 /\
     stream_opens (actions_of evs (SpeechHandler_init id local)) = 1 /\
     uncaught (actions_of evs (SpeechHandler_init id local)) = []).
Proof.
  split; [exact start_again|]. split.
  - intros n.
    assert (Hn : start_times (S n) Transcriber_init =
                 (set_thread ThreadStarted (set_thread_started true Transcriber_init),
                  [ThreadStart], Return tt)).
    { unfold start_times. cbn [repeat for_each]. unfold bind.
      rewrite (start_cases Transcriber_init). cbn [Transcriber_init _thread_started
        _stop_event thread].
      fold (start_times n). rewrite start_times_started by reflexivity. reflexivity. }
    rewrite Hn. auto.
  - split.
    + intros id local evs.
      destruct (steps_spawn evs (SpeechHandler_init id local)) as [H1 H2].
      cbn in H1, H2. split; [lia|]. split; [lia|].
      apply steps_no_double_start, init_consistent.
    + intros id local n evs. subst evs. rewrite actions_of_app.
      unfold actions_of, state_after. cbn [repeat steps].
      set (h1 := fst (step (Call Start) (SpeechHandler_init id local))).
      assert (H1 : step (Call Start) (SpeechHandler_init id local) = (h1, [ThreadStart]))
        by reflexivity.
      rewrite H1, (calls_of_start_started n h1) by reflexivity.
      cbn [fst snd app]. subst h1. cbn. auto.
Qed.






(** * Releasing the queue (C7) *)

Lemma resume_after_stop ev h :
  ev = LoopTest \/ ev = Pull \/ ev = GenClose ->
  request_stream (transcriber h) = GenInWith ->
  _stop_event (transcriber h) = true ->
  in_loop_body (transcriber h) = false ->
  request_stream (transcriber (fst (step (Background ev) h))) = GenFinished /\
  queue (audio_stream (transcriber (fst (step (Background ev) h)))) = [].
Proof.
  intros Hev Hg Hs Hl.
  pattern (fst (step (Background ev) h)), (snd (step (Background ev) h)).
  apply wp_step. destruct_handler h. cbn in Hg, Hs, Hl. subst.
  destruct Hev as [-> | [-> | ->]]; wp_auto; auto.
Qed.

(** The turn of the request loop that is under way comes to its end. *)
Lemma turn_under_way_ends h :
  request_stream (transcriber h) = GenInWith ->
  in_loop_body (transcriber h) = true ->
  request_stream (transcriber (fst (step (Background Pull) h))) = GenInWith /\
  in_loop_body (transcriber (fst (step (Background Pull) h))) = false /\
  _stop_event (transcriber (fst (step (Background Pull) h))) =
    _stop_event (transcriber h).
Proof.
  intros Hg Hl.
  pattern (fst (step (Background Pull) h)), (snd (step (Background Pull) h)).
  apply wp_step. destruct_handler h. cbn in Hg, Hl. subst.
  wp_auto; auto.
Qed.

Lemma ending_sets_stop_event ev h :
  ev = SocketClosed \/ ev = Call Stop \/
  thread (transcriber h) = ThreadInTry /\
  (ev = Background ResponseEnd \/
   (exists name, ev = Background (ResponseError name)) \/
   (exists resp, ev = Background (Response resp) /\ error_code resp <> OK)) ->
  _stop_event (transcriber (fst (step ev h))) = true /\
  queue (audio_stream (transcriber (fst (step ev h)))) =
    queue (audio_stream (transcriber h)).
Proof.
  intros Hev.
  pattern (fst (step ev h)), (snd (step ev h)).
  apply wp_step. destruct_handler h. cbn in Hev.
  destruct Hev as [-> | [-> | [-> [-> | [[name ->] | (resp & -> & Hne)]]]]];
    wp_auto; auto.
  match goal with
  | H : (error_code _ =? OK)%Z = true |- _ => apply Z.eqb_eq in H; contradiction
  end.
Qed.

(** [run] leaves its [try] block through [stop], however the block ends;
    an exception before the [try] block leaves the stop event alone. *)
Lemma run_stops resps ending h :
  let h' := fst (fst (handler_run None None resps ending h)) in
  _stop_event (transcriber h') = true /\
  (_stop_event (transcriber h) = false -> is_started (transcriber h') = false).
Proof.
  enough (wp (handler_run None None resps ending) h
            (fun s _ _ => _stop_event (transcriber s) = true /\
                          (_stop_event (transcriber h) = false ->
                           is_started (transcriber s) = false))) as Hwp
    by (apply wp_run in Hwp; exact Hwp).
  unfold handler_run, run. destruct_handler h. wp_unfold.
  apply wp_bind, wp_zoom, wp_get. wp_simpl. destruct se.
  - apply wp_ret. split; [reflexivity|discriminate].
  - repeat (wp_simpl; wp_rule). wp_simpl.
    apply wp_any. intros s1 out1 r. destruct_handler s1.
    repeat (wp_simpl; wp_rule); wp_simpl; auto.
Qed.

Lemma run_fails_before_try channel built resps ending h :
  channel <> None \/ built <> None ->
  _stop_event (transcriber h) = false ->
  handler_run channel built resps ending h =
  match channel, built with
  | Some name, _ => (h, [], Raise (ExternalError name))
  | None, Some name =>
      (set_transcriber (set_is_started true (transcriber h)) h, [],
       Raise (ExternalError name))
  | None, None => handler_run channel built resps ending h
  end.
Proof.
  intros Hf Hs. destruct_handler h. cbn in Hs. subst.
  destruct channel as [c|]; [reflexivity|].
  destruct built as [b|]; reflexivity.
Qed.

(** A generator that is never made: the stop event was set before the
    thread of [run] passed its stop test. *)
Lemma step_never_made ev h :
  _stop_event (transcriber h) = true ->
  not_running h ->
  request_stream (transcriber h) = GenAbsent ->
  (_stop_event (transcriber (fst (step ev h))) = true /\
   not_running (fst (step ev h)) /\
   request_stream (transcriber (fst (step ev h))) = GenAbsent) /\
  queue (audio_stream (transcriber (fst (step ev h)))) =
    queue (audio_stream (transcriber h)) ++ pushed (snd (step ev h)).
Proof.
  intros Hs Hn Hg. unfold_invariants.
  step_cases ev h; read_actions; cbn in *; subst; rewrite ?app_nil_r;
    intuition (try congruence).
Qed.

Lemma steps_never_made evs : forall h,
  _stop_event (transcriber h) = true ->
  not_running h ->
  request_stream (transcriber h) = GenAbsent ->
  request_stream (transcriber (state_after evs h)) = GenAbsent /\
  queue (audio_stream (transcriber (state_after evs h))) =
    queue (audio_stream (transcriber h)) ++ pushed (actions_of evs h).
Proof.
  induction evs as [|ev evs IH]; intros h Hs Hn Hg.
  - cbn. rewrite app_nil_r. auto.
  - rewrite state_after_cons, actions_of_cons.
    destruct (step_never_made ev h Hs Hn Hg) as ((H1 & H2 & H3) & H4).
    destruct (IH _ H1 H2 H3) as (H5 & H6).
    read_actions. rewrite H6, H4, app_assoc. auto.
Qed.

Lemma step_no_generator ev h :
  no_generator h ->
  no_generator (fst (step ev h)) /\
  requests (snd (step ev h)) = [] /\
  stream_opens (snd (step ev h)) = 0 /\
  thread_starts (snd (step ev h)) = 0 /\
  queue (audio_stream (transcriber (fst (step ev h)))) =
    queue (audio_stream (transcriber h)) ++ pushed (snd (step ev h)).
Proof.
  unfold no_generator. intros Hn. unfold_invariants.
  step_cases ev h; read_actions; cbn in *; subst; rewrite ?app_nil_r;
    intuition (try congruence).
Qed.

Lemma steps_no_generator evs : forall h,
  no_generator h ->
  no_generator (state_after evs h) /\
  requests (actions_of evs h) = [] /\
  stream_opens (actions_of evs h) = 0 /\
  thread_starts (actions_of evs h) = 0 /\
  queue (audio_stream (transcriber (state_after evs h))) =
    queue (audio_stream (transcriber h)) ++ pushed (actions_of evs h).
Proof.
  induction evs as [|ev evs IH]; intros h Hn.
  - cbn. rewrite app_nil_r. auto.
  - rewrite state_after_cons, actions_of_cons.
    destruct (step_no_generator ev h Hn) as (H1 & H2 & H3 & H4 & H5).
    destruct (IH _ H1) as (H6 & H7 & H8 & H9 & H10).
    read_actions. rewrite H2, H3, H4, H7, H8, H9, H10, H5, app_assoc. auto.
Qed.

(** C7, as stated, fails: [stop] does not lead to the queue being
    emptied, and the queue can hold frames after the [with] block has been
    left.  The queue is cleared by [__exit__] alone, which runs when the
    request generator leaves its [with] block.  When [stop] comes before the
    thread has run, no generator is ever made and the frame stays; when the
    response stream ends and the generator is closed without having been
    resumed, it never entered the block and the frame stays; and a frame
    written after the block was left stays as well. *)
Lemma C7_queue_is_not_released :
  let never_made := [Call (Transcribe frame_a); Call Stop; Call Start;
                     Background ThreadRun; Background Pull; Background GenClose] in
  let never_resumed := connect_by_config ++
                       [Message (Binary frame_a) 1%Q; Background ResponseEnd;
                        Background GenClose; Background Pull] in
  let written_later := connect_by_config ++
                       [Background Pull; Call Stop; Background Pull;
                        Message (Binary frame_b) 2%Q; Background Pull] in
  _stop_event (transcriber (state_after never_made fresh)) = true /\
  queue (audio_stream (transcriber (state_after never_made fresh))) = [frame_a] /\
  _stop_event (transcriber (state_after never_resumed fresh)) = true /\
  request_stream (transcriber (state_after never_resumed fresh)) = GenFinished /\
  queue (audio_stream (transcriber (state_after never_resumed fresh))) = [frame_a] /\
  request_stream (transcriber (state_after written_later fresh)) = GenFinished /\
  queue (audio_stream (transcriber (state_after written_later fresh))) = [frame_b].
Proof. vm_compute. auto 10. Qed.

(** C7, amended: whatever event makes the request generator leave its
    [with] block (the loop seeing the stop event, an exception in the body,
    the closing of the generator) leaves the queue empty at that moment.
    [stop], the end of the response stream, an exception of the response
    stream and an error response all set the stop event and leave the queue
    as it is.  With the stop event set and the generator inside its [with]
    block, the block is left and the queue emptied when the generator next
    makes the test of its loop or is closed, after the end of the turn that
    was under way, if one was.  When the stop event is set before the thread
    of [run] has passed its stop test, no generator is made and the queue is
    never cleared; and once the generator has finished, the queue keeps every
    frame written since.  [run], when the channel, the client and the
    configuration are there, ends with the stop event set whatever the
    response stream produces; when one of them fails, [run] raises before its
    [try] block and sets no stop event. *)
Theorem buffer_released :
  (forall ev h,
     request_stream (transcriber h) = GenInWith ->
     request_stream (transcriber (fst (step ev h))) = GenFinished ->
     queue (audio_stream (transcriber (fst (step ev h)))) = []) /\
  (forall ev h,
     ev = SocketClosed \/ ev = Call Stop \/
     thread (transcriber h) = ThreadInTry /\
     (ev = Background ResponseEnd \/
      (exists name, ev = Background (ResponseError name)) \/
      (exists resp, ev = Background (Response resp) /\ error_code resp <> OK)) ->
     _stop_event (transcriber (fst (step ev h))) = true /\
     queue (audio_stream (transcriber (fst (step ev h)))) =
       queue (audio_stream (transcriber h))) /\
  (forall ev h,
     ev = LoopTest \/ ev = Pull \/ ev = GenClose ->
     request_stream (transcriber h) = GenInWith ->
     _stop_event (transcriber h) = true ->
     let h1 := if in_loop_body (transcriber h)
               then fst (step (Background Pull) h) else h in
     request_stream (transcriber (fst (step (Background ev) h1))) = GenFinished /\
     queue (audio_stream (transcriber (fst (step (Background ev) h1)))) = []) /\
  (forall h evs,
     _stop_event (transcriber h) = true ->
     not_running h ->
     request_stream (transcriber h) = GenAbsent ->
     request_stream (transcriber (state_after evs h)) = GenAbsent /\
     queue (audio_stream (transcriber (state_after evs h))) =
       queue (audio_stream (transcriber h)) ++ pushed (actions_of evs h)) /\
  (forall h evs,
     reachable h ->
     request_stream (transcriber h) = GenFinished ->
     queue (audio_stream (transcriber (state_after evs h))) =
       queue (audio_stream (transcriber h)) ++ pushed (actions_of evs h)) /\
  (forall resps ending h,
     _stop_event
       (transcriber (fst (fst (handler_run None None resps ending h)))) = true) /\
  (forall channel built resps ending h,
     channel <> None \/ built <> None ->
     _stop_event (transcriber h) = false ->
     let h' := fst (fst (handler_run channel built resps ending h)) in
     _stop_event (transcriber h') = false /\
     queue (audio_stream (transcriber h')) = queue (audio_stream (transcriber h))).
Proof.
  split; [exact step_leaves_with|]. split; [exact ending_sets_stop_event|].
  split; [|split; [|split; [|split]]].
  - intros ev h Hev Hg Hs h1. subst h1.
    destruct (in_loop_body (transcriber h)) eqn:Hl.
    + destruct (turn_under_way_ends h Hg Hl) as (Hg1 & Hl1 & Hs1).
      apply resume_after_stop; congruence.
    + apply resume_after_stop; assumption.
  - intros h evs Hs Hn Hg. apply steps_never_made; assumption.
  - intros h evs Hr Hg. pose proof (reachable_consistent h Hr) as Hc.
    assert (Hn : no_generator h).
    { unfold no_generator. rewrite Hg. split; [|exact I].
      apply (proj2 (proj2 Hc)). rewrite Hg. discriminate. }
    apply (steps_no_generator evs h Hn).
  - intros resps ending h. apply run_stops.
  - intros channel built resps ending h Hf Hs h'. subst h'.
    rewrite (run_fails_before_try channel built resps ending h Hf Hs).
    destruct channel as [c|]; [auto|].
    destruct built as [b|]; [destruct_handler h; auto|].
    destruct Hf as [Hf|Hf]; contradiction.
Qed.

Lemma buffer_released_witness :
  let h := state_after (connect_by_config ++
                        [Message (Binary frame_a) 1%Q; Background Pull;
                         Message (Binary frame_b) 2%Q; Message (Binary frame_a) 3%Q])
             fresh in
  queue (audio_stream (transcriber h)) = [frame_b; frame_a] /\
  queue (audio_stream (transcriber (fst (step (Call Stop) h)))) = [frame_b; frame_a] /\
  queue (audio_stream
           (transcriber (fst (step (Background Pull) (fst (step (Call Stop) h)))))) = [].
Proof.
  intros h. split; [reflexivity|].
  assert (Hstop : _stop_event (transcriber (fst (step (Call Stop) h))) = true /\
                  queue (audio_stream (transcriber (fst (step (Call Stop) h)))) =
                    queue (audio_stream (transcriber h))).
  { apply (proj1 (proj2 buffer_released)). right. left. reflexivity. }
  destruct Hstop as (Hs & Hq). split; [exact Hq|].
  assert (Hg : request_stream (transcriber (fst (step (Call Stop) h))) = GenInWith)
    by reflexivity.
  exact (proj2 (proj1 (proj2 (proj2 buffer_released)) Pull (fst (step (Call Stop) h))
                  (or_intror (or_introl eq_refl)) Hg Hs)).
Defined.

(** * Configuration (C8) *)

Lemma configure_field_dict d name h :
  configure_field (PDict d) name h =
  (set_transcriber (configured_field d name (transcriber h)) h, [], Return tt).
Proof.
  unfold configure_field, configured_field, bind, lift_result, py_contains, py_getitem.
  destruct (dict_get d name) as [v|];
    [|cbn; rewrite set_transcriber_same; reflexivity].
  destruct (is_none v); cbn; [rewrite set_transcriber_same|]; reflexivity.
Qed.

Lemma configure_dict d h :
  for_each ["rate"; "language"; "encoding"; "punctuation"]
    (configure_field (PDict d)) h =
  (set_transcriber (configured d (transcriber h)) h, [], Return tt).
Proof.
  cbn [for_each]. unfold bind.
  rewrite !configure_field_dict. destruct h; reflexivity.
Qed.

Lemma getattr_configured d name t :
  In name ["rate"; "language"; "encoding"; "punctuation"] ->
  getattr name (configured d t) =
  match dict_get d name with
  | Some v => if is_none v then getattr name t else v
  | None => getattr name t
  end.
Proof.
  intros Hin. unfold configured, configured_field.
  destruct Hin as [<- | [<- | [<- | [<- | []]]]];
    destruct (dict_get d "rate") as [v1|]; try destruct (is_none v1);
    destruct (dict_get d "language") as [v2|]; try destruct (is_none v2);
    destruct (dict_get d "encoding") as [v3|]; try destruct (is_none v3);
    destruct (dict_get d "punctuation") as [v4|]; try destruct (is_none v4);
    reflexivity.
Qed.

Lemma start_keeps_config t :
  let t' := fst (fst (start t)) in
  rate t' = rate t /\ language t' = language t /\ encoding t' = encoding t /\
  punctuation t' = punctuation t /\ interim_results t' = interim_results t /\
  timeout_secs t' = timeout_secs t.
Proof.
  rewrite (start_cases t).
  destruct t as [q enc lang punct rt tmo ir ic ist ts se th gs lp].
  destruct ts, se, th; cbn; auto 10.
Qed.

Lemma configured_keeps_rest d t :
  interim_results (configured d t) = interim_results t /\
  timeout_secs (configured d t) = timeout_secs t.
Proof.
  unfold configured, configured_field.
  destruct (dict_get d "rate") as [v1|]; try destruct (is_none v1);
    destruct (dict_get d "language") as [v2|]; try destruct (is_none v2);
    destruct (dict_get d "encoding") as [v3|]; try destruct (is_none v3);
    destruct (dict_get d "punctuation") as [v4|]; try destruct (is_none v4);
    destruct t; auto.
Qed.

(** A configuration message that is a JSON object, when the timeout test
    lets it through: the loop over the four names, then [start]. *)
Lemma on_message_dict d now h :
  timeout_guard h = false ->
  on_message (Text (Some (PDict d))) now h =
  (let t := configured d (transcriber h) in
   (set_transcriber (fst (fst (start t))) h, snd (fst (start t)), snd (start t))).
Proof.
  unfold timeout_guard. intros Hg.
  unfold on_message, bind at 1, timed_out, bind at 1. cbn [get]. rewrite Hg.
  cbn [ret app]. unfold bind at 1. cbn [json_loads lift_result].
  unfold bind at 1. rewrite configure_dict. cbn [app].
  unfold on_transcriber, zoom. cbn [transcriber set_transcriber].
  destruct (start (configured d (transcriber h))) as [[t1 out1] r1].
  destruct h; reflexivity.
Qed.

(** C8: a new session has rate 44100, encoding LINEAR16, language
    "en-US", punctuation true, interim results true and a timeout of 60
    seconds.  A text message that is a JSON object and that the timeout test
    lets through (as it does for a leading message, [_start_time] being None)
    sets each of rate, language, encoding, punctuation that is a key of the
    object with a value other than null to that value, leaves each of them
    that is absent or null as it was, and leaves the interim-results flag and
    the transcriber's own timeout as they were. *)
Theorem configuration :
  (forall id local,
     let t := transcriber (SpeechHandler_init id local) in
     rate t = PInt 44100 /\ encoding t = LINEAR16 /\ language t = PStr "en-US" /\
     punctuation t = PBool true /\ interim_results t = true /\ TIMEOUT = 60%Z /\
     _start_time (SpeechHandler_init id local) = PNone) /\
  (forall d now h,
     timeout_guard h = false ->
     let h' := fst (fst (on_message (Text (Some (PDict d))) now h)) in
     (forall name,
        In name ["rate"; "language"; "encoding"; "punctuation"] ->
        getattr name (transcriber h') =
        match dict_get d name with
        | Some v => if is_none v then getattr name (transcriber h) else v
        | None => getattr name (transcriber h)
        end) /\
     interim_results (transcriber h') = interim_results (transcriber h) /\
     timeout_secs (transcriber h') = timeout_secs (transcriber h)).
Proof.
  split; [intros id local; cbn; auto 10|].
  intros d now h Hg h'. subst h'. rewrite (on_message_dict d now h Hg).
  cbn [fst snd transcriber set_transcriber].
  destruct (start_keeps_config (configured d (transcriber h)))
    as (H1 & H2 & H3 & H4 & H5 & H6).
  destruct (configured_keeps_rest d (transcriber h)) as (H7 & H8).
  split; [|split; congruence].
  intros name Hin. rewrite <- (getattr_configured d name (transcriber h) Hin).
  destruct Hin as [<- | [<- | [<- | [<- | []]]]]; cbn [getattr String.eqb Ascii.eqb
    Bool.eqb]; assumption.
Qed.

Lemma configuration_witness :
  let h' := fst (fst (on_message (Text (Some sample_config)) 0%Q fresh)) in
  rate (transcriber h') = PInt 16000 /\
  language (transcriber h') = PStr "en-US" /\
  encoding (transcriber h') = LINEAR16 /\
  punctuation (transcriber h') = PBool true.
Proof.
  intros h'.
  assert (Hg : timeout_guard fresh = false) by reflexivity.
  destruct (proj2 configuration [("rate", PInt 16000); ("language", PNone)]
              0%Q fresh Hg) as (Hattr & _ & _).
  split; [exact (Hattr "rate" (or_introl eq_refl))|].
  split; [exact (Hattr "language" (or_intror (or_introl eq_refl)))|].
  split; [exact (Hattr "encoding" (or_intror (or_intror (or_introl eq_refl))))|].
  exact (Hattr "punctuation" (or_intror (or_intror (or_intror (or_introl eq_refl))))).
Defined.

(** * The registry (C9) *)

Lemma step_id ev h : _id (fst (step ev h)) = _id h.
Proof. step_cases ev h; reflexivity. Qed.

Lemma handlers_made_app evs1 evs2 :
  handlers_made (evs1 ++ evs2) = handlers_made evs1 + handlers_made evs2.
Proof.
  induction evs1 as [|[] evs1 IH]; cbn; lia.
Qed.

Lemma open_now_made evs a : open_now evs a -> a < handlers_made evs.
Proof.
  intros (before & after & -> & Hlt & _). rewrite handlers_made_app. lia.
Qed.

Lemma open_now_snoc evs ev a :
  open_now (evs ++ [ev]) a <->
  (ev = Opened a /\ a < handlers_made evs) \/
  (open_now evs a /\ ev <> Session a SocketClosed).
Proof.
  split.
  - intros (before & after & Heq & Hlt & Hclosed).
    destruct (exists_last (l := Opened a :: after)) as (front & last & Hlast);
      [discriminate|].
    destruct after as [|x after].
    + apply app_inj_tail in Heq as [-> <-]. left. auto.
    + assert (Hsplit : exists after', x :: after = after' ++ [last] /\
                                      front = Opened a :: after').
      { destruct front as [|y front]; [discriminate Hlast|].
        cbn in Hlast. inversion Hlast; subst. eauto. }
      destruct Hsplit as (after' & Hafter & ->).
      rewrite Hafter in *.
      change (before ++ Opened a :: after' ++ [last])
        with (before ++ (Opened a :: after') ++ [last]) in Heq.
      rewrite app_assoc in Heq. apply app_inj_tail in Heq as [-> ->].
      right. split.
      * exists before, after'. split; [reflexivity|]. split; [exact Hlt|].
        intros Hin. apply Hclosed, in_or_app. left. exact Hin.
      * intros ->. apply Hclosed, in_or_app. right. left. reflexivity.
  - intros [[-> Hlt] | [(before & after & -> & Hlt & Hclosed) Hne]].
    + exists evs, []. split; [reflexivity|]. split; [exact Hlt|]. exact (fun H => H).
    + exists before, (after ++ [ev]). split; [|split; [exact Hlt|]].
      * rewrite <- app_assoc. reflexivity.
      * intros Hin. apply in_app_or in Hin as [Hin | [Hin | []]];
          [exact (Hclosed Hin) | exact (Hne Hin)].
Qed.

(** What holds of the server after every sequence of events. *)
Lemma server_invariant evs :
  let sv := server_after evs in
  _id_counter sv = length (handlers sv) /\
  length (handlers sv) = handlers_made evs /\
  (forall a h, handlers sv !! a = Some h -> _id h = a) /\
  (forall i a, _clients sv !! i = Some a <-> i = a /\ open_now evs a).
Proof.
  induction evs as [|ev evs IH] using rev_ind.
  - cbn. split; [reflexivity|]. split; [reflexivity|]. split.
    + intros a h Hl. discriminate Hl.
    + intros i a. rewrite lookup_empty. split; [discriminate|].
      intros [_ (before & after & Heq & _)]. destruct before; discriminate Heq.
  - unfold server_after in *. rewrite fold_left_app. cbn [fold_left].
    set (sv := fold_left server_step evs Server_init) in *. cbn zeta in IH.
    destruct IH as (Hcount & Hlen & Hids & Hreg).
    rewrite handlers_made_app. cbn [handlers_made].
    assert (Hkeep : forall a0 ev0,
      let sv' := deliver a0 ev0 sv in
      _clients sv' = _clients sv /\ _id_counter sv' = _id_counter sv /\
      length (handlers sv') = length (handlers sv) /\
      (forall a h, handlers sv' !! a = Some h -> _id h = a)).
    { intros a0 ev0. unfold deliver.
      destruct (handlers sv !! a0) as [h0|] eqn:Hh0; cbn; [|auto].
      split; [reflexivity|]. split; [reflexivity|].
      split; [apply length_insert|].
      intros a h Hl. destruct (decide (a0 = a)) as [->|Hne].
      - rewrite list_lookup_insert_eq in Hl by (eapply lookup_lt_Some; eauto).
        inversion Hl; subst. rewrite step_id. eauto.
      - rewrite list_lookup_insert_ne in Hl by exact Hne. eauto. }
    destruct ev as [local | a0 | a0 ev0]; cbn [server_step].
    + (* a new handler *)
      unfold new_handler. cbn.
      split; [rewrite length_app; cbn; lia|].
      split; [rewrite length_app; cbn; lia|]. split.
      * intros a h Hl. apply lookup_app_Some in Hl as [Hl | [Hge Hl]]; [eauto|].
        destruct (a - length (handlers sv)) eqn:Hd; [|destruct n; discriminate Hl].
        cbn in Hl. inversion Hl; subst. cbn. lia.
      * intros i a. rewrite Hreg, open_now_snoc.
        split; [intros [-> Ho]; split; [reflexivity|right; split; [exact Ho|discriminate]]|].
        intros [-> [[Hd _] | [Ho _]]]; [discriminate Hd | auto].
    + (* open *)
      unfold open.
      destruct (handlers sv !! a0) as [h0|] eqn:Hh0.
      * pose proof (Hids _ _ Hh0) as Hid0.
        assert (Hlt0 : a0 < handlers_made evs)
          by (rewrite <- Hlen; eapply lookup_lt_Some; eauto).
        destruct (_clients sv !! _id h0) as [b|] eqn:Hc; cbn.
        -- split; [exact Hcount|]. split; [lia|]. split; [exact Hids|].
           intros i a. rewrite Hreg, open_now_snoc.
           split; [intros [-> Ho]; split; [reflexivity|right; split; [exact Ho|discriminate]]|].
           intros [-> [[Hd _] | [Ho _]]]; [|auto].
           injection Hd as <-. rewrite Hid0 in Hc. apply Hreg in Hc as [<- Ho]. auto.
        -- split; [exact Hcount|]. split; [lia|]. split; [exact Hids|].
           intros i a. rewrite Hid0, lookup_insert, open_now_snoc.
           destruct (decide (a0 = i)) as [->|Hne].
           ++ split; [intros Hs; inversion Hs; subst; auto|].
              intros [-> _]. reflexivity.
           ++ rewrite Hreg. split.
              ** intros [-> Ho]. split; [reflexivity|]. right. split; [exact Ho|discriminate].
              ** intros [-> [[Hd _] | [Ho _]]]; [inversion Hd; subst; contradiction|auto].
      * split; [exact Hcount|]. split; [lia|]. split; [exact Hids|].
        intros i a. rewrite Hreg, open_now_snoc.
        split; [intros [-> Ho]; split; [reflexivity|right; split; [exact Ho|discriminate]]|].
        intros [-> [[Hd Hlt] | [Ho _]]]; [|auto].
        inversion Hd; subst. apply lookup_ge_None in Hh0. lia.
    + (* an event of a session *)
      destruct (Hkeep a0 ev0) as (Hc' & Hn' & Hl' & Hi').
      assert (Hother : ev0 <> SocketClosed ->
        let sv' := deliver a0 ev0 sv in
        _id_counter sv' = length (handlers sv') /\
        length (handlers sv') = handlers_made evs + 0 /\
        (forall a h, handlers sv' !! a = Some h -> _id h = a) /\
        (forall i a, _clients sv' !! i = Some a <->
                     i = a /\ open_now (evs ++ [Session a0 ev0]) a)).
      { intros Hne sv'. subst sv'. rewrite Hc', Hn', Hl'.
        split; [exact Hcount|]. split; [lia|]. split; [exact Hi'|].
        intros i a. rewrite Hreg, open_now_snoc.
        split; [intros [-> Ho]; split; [reflexivity|right; split; [exact Ho|]]|].
        - intros Heq. inversion Heq; subst. contradiction.
        - intros [-> [[Hd _] | [Ho _]]]; [discriminate Hd | auto]. }
      destruct ev0 as [msg now| |c|w]; try (apply Hother; discriminate).
      unfold on_close.
      destruct (handlers sv !! a0) as [h0|] eqn:Hh0.
      * pose proof (Hids _ _ Hh0) as Hid0. cbv zeta.
        assert (Hdel : forall i a,
          delete a0 (_clients sv) !! i = Some a <->
          i = a /\ open_now (evs ++ [Session a0 SocketClosed]) a).
        { intros i a. rewrite lookup_delete, open_now_snoc.
          destruct (decide (a0 = i)) as [->|Hne].
          - split; [discriminate|].
            intros [-> [[Hd _] | [_ Hn]]]; [discriminate Hd | contradiction].
          - rewrite Hreg. split.
            + intros [-> Ho]. split; [reflexivity|]. right. split; [exact Ho|].
              intros Heq. inversion Heq; subst. contradiction.
            + intros [-> [[Hd _] | [Ho _]]]; [discriminate Hd | auto]. }
        destruct (_clients (deliver a0 SocketClosed sv) !! _id h0) as [b|] eqn:Hc;
          cbn [_clients _id_counter handlers].
        -- split; [congruence|]. split; [lia|]. split; [exact Hi'|].
           intros i a. rewrite Hid0.
           replace (_clients (deliver a0 SocketClosed sv)) with (_clients sv).
           apply Hdel.
        -- split; [congruence|]. split; [lia|]. split; [exact Hi'|].
           intros i a. rewrite <- Hdel, lookup_delete.
           replace (_clients (deliver a0 SocketClosed sv)) with (_clients sv) in *.
           rewrite Hid0 in Hc.
           destruct (decide (a0 = i)) as [->|Hne]; [rewrite Hc|]; reflexivity.
      * split; [exact Hcount|]. split; [lia|]. split; [exact Hids|].
        intros i a. rewrite Hreg, open_now_snoc. split.
        -- intros [-> Ho]. split; [reflexivity|]. right. split; [exact Ho|].
           intros Heq. inversion Heq; subst.
           apply open_now_made in Ho. apply lookup_ge_None in Hh0. lia.
        -- intros [-> [[Hd _] | [Ho _]]]; [discriminate Hd | auto].
Qed.

(** C9: after every sequence of events (handlers made, opened, closed,
    and whatever happens in their sessions) the registry has an entry for
    exactly the handlers that have been opened and not closed since, each
    under its own id; and the ids are the values of one counter that goes up
    by one for each handler made, so they grow with the order of creation
    and no two handlers share one. *)
Theorem registry_consistent (evs : list server_event) :
  let sv := server_after evs in
  (forall i a,
     _clients sv !! i = Some a <->
     open_now evs a /\ exists h, handlers sv !! a = Some h /\ _id h = i) /\
  _id_counter sv = length (handlers sv) /\
  (forall a h, handlers sv !! a = Some h -> _id h = a /\ _id h < _id_counter sv) /\
  (forall a b ha hb,
     handlers sv !! a = Some ha -> handlers sv !! b = Some hb ->
     (a < b -> _id ha < _id hb) /\ (_id ha = _id hb -> a = b)).
Proof.
  intros sv. destruct (server_invariant evs) as (Hcount & Hlen & Hids & Hreg).
  fold sv in Hcount, Hlen, Hids, Hreg.
  split; [|split; [exact Hcount|split]].
  - intros i a. rewrite Hreg. split.
    + intros [-> Ho]. split; [exact Ho|].
      pose proof (open_now_made _ _ Ho) as Hlt. rewrite <- Hlen in Hlt.
      apply lookup_lt_is_Some in Hlt as [h Hh]. exists h. split; [exact Hh|eauto].
    + intros [Ho (h & Hh & <-)]. split; [eauto|exact Ho].
  - intros a h Hh. split; [eauto|].
    rewrite (Hids _ _ Hh), Hcount. eapply lookup_lt_Some; eauto.
  - intros a b ha hb Ha Hb. rewrite (Hids _ _ Ha), (Hids _ _ Hb). auto.
Qed.

Lemma registry_consistent_witness :
  let evs := [NewHandler false; NewHandler false; Opened 0; Opened 1;
              Session 0 (Message (Binary frame_a) 1%Q); Session 0 SocketClosed] in
  _clients (server_after evs) !! 1 = Some 1 /\
  _clients (server_after evs) !! 0 = None.
Proof.
  intros evs. split.
  - apply (proj1 (registry_consistent evs)). split.
    + exists [NewHandler false; NewHandler false; Opened 0],
        [Session 0 (Message (Binary frame_a) 1%Q); Session 0 SocketClosed].
      split; [reflexivity|]. split; [cbn; lia|].
      intros [H|[H|[]]]; discriminate H.
    + eexists. split; reflexivity.
  - vm_compute. reflexivity.
Defined.

(** * The start time (C10) *)

Lemma binary_sets_start_time data now h :
  is_started (transcriber h) = false ->
  _start_time (fst (step (Message (Binary data) now) h)) = PFloat now.
Proof.
  intros Hi.
  pattern (fst (step (Message (Binary data) now) h)),
          (snd (step (Message (Binary data) now) h)).
  apply wp_step. destruct_handler h. cbn in Hi. subst.
  wp_auto; try reflexivity.
  all: rewrite andb_false_r in *; discriminate.
Qed.

(** C10, as stated, fails: the transcriber is started by a leading
    configuration message, [is_started] is true and [_start_time] is None
    when the first binary frame arrives and after it; the response stream
    then ends, and the next binary frame sets [_start_time]. *)
Lemma C10_start_time_is_set_later :
  let first := connect_by_config ++ [Message (Binary frame_a) 1%Q] in
  let evs := first ++ [Background ResponseEnd; Message (Binary frame_b) 2%Q] in
  is_started (transcriber (state_after connect_by_config fresh)) = true /\
  _start_time (state_after first fresh) = PNone /\
  _start_time (state_after evs fresh) = PFloat 2%Q /\
  _start_time (state_after evs fresh) <> PNone.
Proof. vm_compute. repeat split; discriminate. Qed.

(** C10, amended: when a session has [is_started] true and [_start_time]
    None (the transcriber was started by a configuration message and is
    connected before the first binary frame), then under every continuation
    the guard of the timeout test is false at every message, the socket is
    never closed by [on_message], and [_start_time] stays None for as long as
    [is_started] is true; it is assigned only by a binary frame that arrives
    after [is_started] has become false again, which it then stays.
    Moreover every binary frame that arrives while [is_started] is false
    assigns the clock reading of its arrival to [_start_time]. *)
Theorem start_time_unset_while_started :
  (forall h evs,
     reachable h ->
     is_started (transcriber h) = true ->
     _start_time h = PNone ->
     timeout_guard (state_after evs h) = false /\
     socket_closes (actions_of evs h) = 0 /\
     (is_started (transcriber (state_after evs h)) = true ->
      _start_time (state_after evs h) = PNone) /\
     (is_started (transcriber (state_after evs h)) = false ->
      forall evs', is_started (transcriber (state_after (evs ++ evs') h)) = false)) /\
  (forall h data now,
     is_started (transcriber h) = false ->
     _start_time (fst (step (Message (Binary data) now) h)) = PFloat now).
Proof.
  split; [|intros h data now; apply binary_sets_start_time].
  intros h evs Hr Hi Hs.
  assert (Hp : past_connecting h).
  { destruct (reachable_consistent h Hr) as (_ & Hst & _). exact (Hst Hi). }
  split; [apply steps_guard_stays_off; auto|].
  split; [apply steps_no_close|].
  destruct (steps_past_connecting evs h Hp) as (Hp' & Hkeep).
  split; [intros Hi'; apply Hkeep; assumption|].
  intros Hoff evs'. rewrite state_after_app.
  destruct (steps_past_connecting evs' _ Hp') as (_ & Hkeep').
  destruct (is_started (transcriber (state_after evs' (state_after evs h)))) eqn:Hon;
    [|reflexivity].
  destruct (Hkeep' eq_refl) as (Hc & _). congruence.
Qed.

Lemma start_time_unset_while_started_witness :
  let h := state_after connect_by_config fresh in
  let evs := [Message (Binary frame_a) 1%Q; Message (Binary frame_b) 100%Q;
              Background Pull; Message (Binary frame_a) 1000%Q] in
  timeout_guard (state_after evs h) = false /\
  _start_time (state_after evs h) = PNone /\
  _start_time (fst (step (Message (Binary frame_a) 7%Q) fresh)) = PFloat 7%Q.
Proof.
  intros h evs.
  assert (Hr : reachable h) by (exists 0, false, connect_by_config; reflexivity).
  assert (Hi : is_started (transcriber h) = true) by reflexivity.
  assert (Hs : _start_time h = PNone) by reflexivity.
  destruct (proj1 start_time_unset_while_started h evs Hr Hi Hs) as (H1 & _ & H2 & _).
  split; [exact H1|]. split; [apply H2; reflexivity|].
  apply (proj2 start_time_unset_while_started fresh frame_a 7%Q). reflexivity.
Defined.

(** * The queue on its own *)

Lemma for_each_write fs : forall s,
  for_each fs write s = ({| queue := queue s ++ fs |}, map QueuePut fs, Return tt).
Proof.
  induction fs as [|f fs IH]; intros [q].
  - cbn. rewrite app_nil_r. reflexivity.
  - cbn [for_each]. unfold bind at 1. cbn. rewrite IH. cbn.
    rewrite <- app_assoc. reflexivity.
Qed.

Lemma read_times_queue q : forall k,
  read_times (length q + k) {| queue := q |} =
  ({| queue := [] |}, [], Return (map as_read q ++ repeat None k)).
Proof.
  induction q as [|d q IH]; intros k.
  - induction k as [|k IHk]; [reflexivity|].
    cbn [length Nat.add read_times] in *. unfold bind at 1. cbn.
    unfold bind at 1. rewrite IHk. reflexivity.
  - cbn [length Nat.add read_times]. unfold bind at 1.
    assert (Hr : read {| queue := d :: q |} = ({| queue := q |}, [], Return (as_read d)))
      by (unfold as_read; cbn; destruct (frame_truthy d); reflexivity).
    rewrite Hr. unfold bind at 1. rewrite IH. reflexivity.
Qed.

(** X1: what is written to an empty stream is read back in the order of
    the writes, one frame per call, the empty byte string read as [None];
    the reads take every frame off the queue, further reads return [None]
    and change nothing, and no read returns an empty frame. *)
Theorem write_read_round_trip (fs : list frame) (k : nat) :
  let s := fst (fst (for_each fs write QueuedAudioStream_init)) in
  queue s = fs /\
  read_times (length fs + k) s =
    ({| queue := [] |}, [], Return (map as_read fs ++ repeat None k)) /\
  (forall d, In (Some d) (map as_read fs ++ repeat None k) -> d <> []).
Proof.
  cbn zeta. rewrite for_each_write. cbn [fst QueuedAudioStream_init queue app].
  split; [reflexivity|]. split; [apply read_times_queue|].
  intros d Hin. apply in_app_or in Hin as [Hin|Hin].
  - apply in_map_iff in Hin as (f & Hf & _). unfold as_read in Hf.
    destruct f; [discriminate Hf|]. cbn in Hf. injection Hf as <-. discriminate.
  - apply repeat_spec in Hin. discriminate Hin.
Qed.

(** * Text messages that are not a JSON object *)

Lemma on_message_guard_off msg now h :
  timeout_guard h = false ->
  on_message msg now h =
  match msg with
  | Text loaded =>
      (data <- lift_result (json_loads loaded) ;;
       for_each ["rate"; "language"; "encoding"; "punctuation"] (configure_field data) ;;
       on_transcriber start) h
  | Binary data =>
      (h0 <- get ;;
       (if negb (is_started (transcriber h0)) then
          modify (set_start_time (time_time now)) ;;
          on_transcriber start
        else ret tt) ;;
       on_transcriber (transcribe data)) h
  end.
Proof.
  unfold timeout_guard. intros Hg.
  unfold on_message, bind at 1, timed_out, bind at 1. cbn [get]. rewrite Hg.
  cbn [ret app]. destruct msg.
  - destruct (bind _ _ h) as [[h1 out1] r1]. reflexivity.
  - destruct (bind _ _ h) as [[h1 out1] r1]. reflexivity.
Qed.

(** X2: when the timeout test lets it through, a text message that is not
    JSON, or that is the JSON null, a boolean or a number, makes [on_message]
    raise before anything is configured and before [start] is called: the
    handler is left as it was and nothing is done. *)
Theorem text_not_iterable (now : Q) (h : SpeechHandler) :
  timeout_guard h = false ->
  on_message (Text None) now h =
    (h, [], Raise (ExternalError "ValueError: No JSON object could be decoded")) /\
  (forall data,
     json_scalar data = true ->
     on_message (Text (Some data)) now h =
       (h, [], Raise (TypeError "argument is not iterable"))).
Proof.
  intros Hg. split.
  - rewrite (on_message_guard_off _ now h Hg). reflexivity.
  - intros data Hd. rewrite (on_message_guard_off _ now h Hg).
    destruct data; try discriminate Hd; reflexivity.
Qed.

Lemma text_not_iterable_witness :
  on_message (Text (Some PNone)) 0%Q fresh =
    (fresh, [], Raise (TypeError "argument is not iterable")) /\
  on_message (Text (Some (PInt 16000))) 0%Q fresh =
    (fresh, [], Raise (TypeError "argument is not iterable")).
Proof.
  assert (Hg : timeout_guard fresh = false) by reflexivity.
  split.
  - exact (proj2 (text_not_iterable 0%Q fresh Hg) PNone eq_refl).
  - exact (proj2 (text_not_iterable 0%Q fresh Hg) (PInt 16000) eq_refl).
Defined.

Lemma configure_sequence data names h :
  (exists l, data = PList l) \/ (exists s, data = PStr s) ->
  for_each names (configure_field data) h =
  (h, [],
   if existsb (fun name => match py_contains name data with
                           | Return b => b
                           | Raise _ => false
                           end) names
   then Raise (TypeError (match data with
                          | PList _ => "list indices must be integers"
                          | _ => "string indices must be integers"
                          end))
   else Return tt).
Proof.
  intros Hd. induction names as [|name names IH]; [reflexivity|].
  cbn [for_each existsb]. unfold bind at 1.
  assert (Hf : configure_field data name h =
               (h, [],
                match py_contains name data with
                | Return true =>
                    Raise (TypeError (match data with
                                      | PList _ => "list indices must be integers"
                                      | _ => "string indices must be integers"
                                      end))
                | _ => Return tt
                end)).
  { destruct Hd as [[l ->] | [s ->]]; unfold configure_field, bind, lift_result;
      cbn [py_contains py_getitem];
      match goal with |- context [if ?b then _ else _] => destruct b end; reflexivity. }
  rewrite Hf.
  destruct Hd as [[l ->] | [s ->]]; cbn [py_contains] in *;
    match goal with |- context [if ?b then _ else _] => destruct b end;
    cbn [orb]; try reflexivity; rewrite IH; reflexivity.
Qed.

(** X3: when the timeout test lets it through, a text message that is a
    JSON array or a JSON string configures nothing.  When none of the four
    names is an element of the array, or a substring of the string,
    [on_message] goes on to [start] exactly as for an empty object; when one
    is, the subscript raises TypeError, the handler is left as it was and
    [start] is not called. *)
Theorem text_array_or_string (data : pyval) (now : Q) (h : SpeechHandler) :
  timeout_guard h = false ->
  (exists l, data = PList l) \/ (exists s, data = PStr s) ->
  if names_a_field data
  then exists msg, on_message (Text (Some data)) now h = (h, [], Raise (TypeError msg))
  else on_message (Text (Some data)) now h = on_transcriber start h /\
       on_message (Text (Some data)) now h = on_message (Text (Some (PDict []))) now h.
Proof.
  intros Hg Hd.
  rewrite !(on_message_guard_off _ now h Hg).
  assert (Hobj : (data0 <- lift_result (json_loads (Some (PDict []))) ;;
                  for_each ["rate"; "language"; "encoding"; "punctuation"]
                    (configure_field data0) ;;
                  on_transcriber start) h = on_transcriber start h).
  { unfold bind at 1. cbn [json_loads lift_result]. unfold bind at 1.
    rewrite configure_dict. cbn [configured configured_field dict_get].
    rewrite set_transcriber_same. cbn [app].
    destruct (on_transcriber start h) as [[h1 out1] r1]. reflexivity. }
  rewrite Hobj. clear Hobj.
  assert (Hn : existsb (fun name => match py_contains name data with
                                    | Return b => b
                                    | Raise _ => false
                                    end)
                 ["rate"; "language"; "encoding"; "punctuation"] =
               names_a_field data).
  { destruct Hd as [[l ->] | [s ->]]; reflexivity. }
  assert (Hbody : (data0 <- lift_result (json_loads (Some data)) ;;
                   for_each ["rate"; "language"; "encoding"; "punctuation"]
                     (configure_field data0) ;;
                   on_transcriber start) h =
                  if names_a_field data
                  then (h, [], Raise (TypeError (match data with
                                                 | PList _ => "list indices must be integers"
                                                 | _ => "string indices must be integers"
                                                 end)))
                  else on_transcriber start h).
  { unfold bind at 1. cbn [json_loads lift_result]. unfold bind at 1.
    rewrite (configure_sequence data _ h Hd), Hn.
    destruct (names_a_field data); [reflexivity|]. cbn [app].
    destruct (on_transcriber start h) as [[h1 out1] r1]. reflexivity. }
  rewrite Hbody. destruct (names_a_field data); eauto.
Qed.

Lemma text_array_or_string_witness :
  on_message (Text (Some (PList [PInt 1; PInt 2]))) 0%Q fresh =
    on_transcriber start fresh /\
  exists msg,
    on_message (Text (Some (PList [PStr "rate"]))) 0%Q fresh =
      (fresh, [], Raise (TypeError msg)).
Proof.
  assert (Hg : timeout_guard fresh = false) by reflexivity.
  split.
  - exact (proj1 (text_array_or_string (PList [PInt 1; PInt 2]) 0%Q fresh Hg
                    (or_introl (ex_intro _ _ eq_refl)))).
  - exact (text_array_or_string (PList [PStr "rate"]) 0%Q fresh Hg
             (or_introl (ex_intro _ _ eq_refl))).
Defined.

(** * What every event keeps *)

Lemma step_recorded ev h :
  _recorded_audio_data (fst (step ev h)) =
    _recorded_audio_data h ++
    (if request_host_is_local h then requests (snd (step ev h)) else []) /\
  request_host_is_local (fst (step ev h)) = request_host_is_local h.
Proof.
  step_cases ev h; read_actions; destruct loc; cbn; rewrite ?app_nil_r; auto;
    discriminate.
Qed.

(** X4: the audio kept for the debug recording is what was handed to the
    service.  On a handler whose request host is the local one,
    [_recorded_audio_data] is at every moment the list of the frames sent in
    requests so far, in order; on any other handler it stays empty. *)
Theorem recorded_audio_is_what_was_sent (id : nat) (local : bool) (evs : list event) :
  _recorded_audio_data (state_after evs (SpeechHandler_init id local)) =
  if local then requests (actions_of evs (SpeechHandler_init id local)) else [].
Proof.
  enough (Hgen : forall h,
    _recorded_audio_data (state_after evs h) =
      _recorded_audio_data h ++
      (if request_host_is_local h then requests (actions_of evs h) else []) /\
    request_host_is_local (state_after evs h) = request_host_is_local h).
  { destruct (Hgen (SpeechHandler_init id local)) as [H _]. exact H. }
  induction evs as [|ev evs IH]; intros h.
  - cbn. destruct (request_host_is_local h); rewrite app_nil_r; auto.
  - rewrite state_after_cons, actions_of_cons.
    destruct (step_recorded ev h) as [H1 H2].
    destruct (IH (fst (step ev h))) as [H3 H4].
    rewrite H3, H4, H1, H2. split; [|reflexivity].
    destruct (request_host_is_local h); read_actions;
      rewrite ?app_nil_r, <- ?app_assoc; reflexivity.
Qed.

Lemma step_fixed ev h :
  interim_results (transcriber (fst (step ev h))) = interim_results (transcriber h) /\
  timeout_secs (transcriber (fst (step ev h))) = timeout_secs (transcriber h) /\
  (is_connected (transcriber h) = true ->
   is_connected (transcriber (fst (step ev h))) = true) /\
  (is_connected (transcriber (fst (step ev h))) = true ->
   is_connected (transcriber h) = true \/
   request_stream (transcriber (fst (step ev h))) = GenInWith \/
   request_stream (transcriber (fst (step ev h))) = GenFinished).
Proof.
  step_cases ev h; cbn; auto 10.
Qed.

(** X5: nothing a session goes through changes the interim-results flag
    or the transcriber's own timeout: whatever the client sends and whatever
    the worker does, the transcriber of a session has [interim_results] true
    and [timeout_secs] at the eight hours it was made with. *)
Theorem interim_results_fixed (id : nat) (local : bool) (evs : list event) :
  interim_results (transcriber (state_after evs (SpeechHandler_init id local))) = true /\
  timeout_secs (transcriber (state_after evs (SpeechHandler_init id local))) = 28800%Z.
Proof.
  enough (Hgen : forall h,
    interim_results (transcriber (state_after evs h)) = interim_results (transcriber h) /\
    timeout_secs (transcriber (state_after evs h)) = timeout_secs (transcriber h)).
  { apply (Hgen (SpeechHandler_init id local)). }
  induction evs as [|ev evs IH]; intros h; [auto|].
  rewrite state_after_cons.
  destruct (step_fixed ev h) as (H1 & H2 & _).
  destruct (IH (fst (step ev h))) as (H3 & H4). split; congruence.
Qed.

(** X6: [is_connected] is set when the request generator is first resumed
    and is never cleared: once true it stays true under every continuation,
    after [stop] and after the thread has exited as well; and on a session
    it is true only when the generator has been resumed or closed. *)
Theorem is_connected_never_cleared :
  (forall h evs,
     is_connected (transcriber h) = true ->
     is_connected (transcriber (state_after evs h)) = true) /\
  (forall id local evs,
     let h := state_after evs (SpeechHandler_init id local) in
     is_connected (transcriber h) = true ->
     request_stream (transcriber h) = GenInWith \/
     request_stream (transcriber h) = GenFinished).
Proof.
  split.
  - intros h evs. revert h. induction evs as [|ev evs IH]; intros h Hc; [exact Hc|].
    rewrite state_after_cons. apply IH. apply step_fixed, Hc.
  - intros id local evs.
    enough (Hgen : forall h,
      (is_connected (transcriber h) = true ->
       request_stream (transcriber h) = GenInWith \/
       request_stream (transcriber h) = GenFinished) ->
      generator_after_connect h ->
      is_connected (transcriber (state_after evs h)) = true ->
      request_stream (transcriber (state_after evs h)) = GenInWith \/
      request_stream (transcriber (state_after evs h)) = GenFinished).
    { apply Hgen; [discriminate | apply init_consistent]. }
    induction evs as [|ev evs IH]; intros h Hh Hg Hc; [auto|].
    rewrite state_after_cons in *.
    apply IH; [| |exact Hc].
    + intros Hc1. destruct (step_fixed ev h) as (_ & _ & _ & H4).
      destruct (H4 Hc1) as [H|H]; [|exact H].
      (* the generator of a connected transcriber stays resumed or finished *)
      clear - H Hh Hg. specialize (Hh H). revert Hh Hg. unfold_invariants.
      step_cases ev h; cbn in *; subst; intuition (try congruence).
    + clear - Hg. revert Hg. unfold_invariants.
      step_cases ev h; cbn in *; subst; intuition (try congruence).
Qed.

Lemma is_connected_never_cleared_witness :
  let h := state_after (connect_by_config ++ [Background Pull]) fresh in
  is_connected (transcriber h) = true /\
  is_connected
    (transcriber (state_after [SocketClosed; Background Pull; Background ResponseEnd] h)) =
    true.
Proof.
  intros h.
  assert (Hc : is_connected (transcriber h) = true) by reflexivity.
  split; [exact Hc|].
  exact (proj1 is_connected_never_cleared h _ Hc).
Defined.

(** X7: no session ever closes its own socket.  The one call of
    [self.close()] sits behind the timeout test of [on_message], and that
    test never comes out true: in whatever state a session is and whatever
    happens to it, no method reaches the call. *)
Theorem socket_never_closed (h : SpeechHandler) (evs : list event) :
  socket_closes (actions_of evs h) = 0 /\
  forall msg now, socket_closes (snd (fst (on_message msg now h))) = 0.
Proof.
  split; [apply steps_no_close|].
  intros msg now. pose proof (step_no_close (Message msg now) h) as H.
  unfold step, exec in H.
  destruct (on_message msg now h) as [[h' out] [[]|e]]; cbn [fst snd] in *;
    [exact H|].
  revert H. read_actions. cbn. lia.
Qed.

(** * From the configuration message to the streaming call *)





Lemma configured_by_app ds1 ds2 t :
  configured_by (ds1 ++ ds2) t = configured_by ds2 (configured_by ds1 t).
Proof. apply fold_left_app. Qed.






(** * Frames that nothing will read *)

(** X9: when [_create_channel] fails, the exception leaves [run] before
    the [try] block, so [stop] is not called: the thread dies with the
    exception, and the stop event and [is_started] stay as they were.
    Whatever happens afterwards, the thread stays dead, no thread is started,
    no streaming call is opened, no frame is handed to the service and no
    result is passed on, and every frame written stays in the queue, which
    only grows. *)
Theorem connect_failure_strands_frames (name : string) (h : SpeechHandler) :
  thread (transcriber h) = ThreadConnecting ->
  request_stream (transcriber h) = GenAbsent ->
  let h1 := fst (step (Background (ChannelFailed name)) h) in
  snd (step (Background (ChannelFailed name)) h) = [Uncaught (ExternalError name)] /\
  h1 = with_thread (ThreadExited (Raise (ExternalError name))) h /\
  _stop_event (transcriber h1) = _stop_event (transcriber h) /\
  is_started (transcriber h1) = is_started (transcriber h) /\
  forall evs,
    thread (transcriber (state_after evs h1)) =
      ThreadExited (Raise (ExternalError name)) /\
    thread_starts (actions_of evs h1) = 0 /\
    stream_opens (actions_of evs h1) = 0 /\
    requests (actions_of evs h1) = [] /\
    messages (actions_of evs h1) = [] /\
    queue (audio_stream (transcriber (state_after evs h1))) =
      queue (audio_stream (transcriber h)) ++ pushed (actions_of evs h1).
Proof.
  intros Ht Hg h1.
  assert (Hstep : step (Background (ChannelFailed name)) h =
                  (with_thread (ThreadExited (Raise (ExternalError name))) h,
                   [Uncaught (ExternalError name)])).
  { destruct_handler h. cbn in Ht, Hg. subst. reflexivity. }
  subst h1. rewrite Hstep. cbn [fst snd].
  split; [reflexivity|]. split; [reflexivity|].
  split; [destruct_handler h; reflexivity|].
  split; [destruct_handler h; reflexivity|].
  intros evs.
  set (h1 := with_thread (ThreadExited (Raise (ExternalError name))) h).
  assert (Hn : no_generator h1).
  { unfold no_generator, past_connecting. subst h1. destruct_handler h.
    cbn in Hg |- *. subst. auto. }
  destruct (steps_no_generator evs h1 Hn) as (_ & H2 & H3 & H4 & H5).
  destruct (steps_exited evs h1 (Raise (ExternalError name))) as (H6 & H7);
    [subst h1; destruct_handler h; reflexivity|].
  rewrite H5. subst h1. destruct_handler h. cbn [with_thread set_transcriber
    transcriber set_thread audio_stream queue]. auto 10.
Qed.

Lemma connect_failure_strands_frames_witness :
  let h := state_after [Call Start; Background ThreadRun] fresh in
  let h1 := fst (step (Background (ChannelFailed "grpc.RpcError")) h) in
  _stop_event (transcriber h1) = false /\
  requests (actions_of [Message (Binary frame_a) 1%Q; Background Pull] h1) = [] /\
  queue (audio_stream
           (transcriber (state_after [Message (Binary frame_a) 1%Q; Background Pull] h1))) =
    [frame_a].
Proof.
  intros h h1. subst h1.
  destruct (connect_failure_strands_frames "grpc.RpcError" h eq_refl eq_refl)
    as (_ & _ & Hs & _ & Hall).
  destruct (Hall [Message (Binary frame_a) 1%Q; Background Pull])
    as (_ & _ & _ & Hr & _ & Hq).
  split; [exact Hs|]. split; [exact Hr|]. rewrite Hq. reflexivity.
Defined.

(** X10: once the request generator has finished (the stop event was
    seen, the consumer closed it, or a callback raised), nothing reads the
    queue any more, while [transcribe] still writes to it: under every
    continuation of the session no frame is handed to the service, and the
    queue holds what it held then and, after that, every frame written
    since, in order. *)
Theorem frames_after_the_stream_pile_up (h : SpeechHandler) (evs : list event) :
  reachable h ->
  request_stream (transcriber h) = GenFinished ->
  request_stream (transcriber (state_after evs h)) = GenFinished /\
  requests (actions_of evs h) = [] /\
  queue (audio_stream (transcriber (state_after evs h))) =
    queue (audio_stream (transcriber h)) ++ pushed (actions_of evs h).
Proof.
  intros Hr Hg. pose proof (reachable_consistent h Hr) as Hc.
  assert (Hn : no_generator h).
  { unfold no_generator. rewrite Hg. split; [|exact I].
    apply (proj2 (proj2 Hc)). rewrite Hg. discriminate. }
  destruct (steps_no_generator evs h Hn) as (_ & H2 & _ & _ & H5).
  destruct (steps_generator_finished evs h Hc Hg) as (H6 & _). auto.
Qed.

Lemma frames_after_the_stream_pile_up_witness :
  let h := state_after (connect_by_config ++
                        [Background Pull; SocketClosed; Background Pull]) fresh in
  let evs := [Message (Binary frame_a) 1%Q; Background Pull;
              Message (Binary frame_b) 2%Q; Background Pull] in
  requests (actions_of evs h) = [] /\
  queue (audio_stream (transcriber (state_after evs h))) = [frame_a; frame_b].
Proof.
  intros h evs.
  assert (Hr : reachable h) by (exists 0, false; eexists; reflexivity).
  destruct (frames_after_the_stream_pile_up h evs Hr eq_refl) as (_ & H1 & H2).
  split; [exact H1|]. rewrite H2. reflexivity.
Defined.

(** * Results the callback cannot read, and responses after an error *)

Lemma relay_app rs1 rs2 :
  snd (relay rs1) = Return tt ->
  relay (rs1 ++ rs2) = (fst (relay rs1) ++ fst (relay rs2), snd (relay rs2)).
Proof.
  induction rs1 as [|r rs1 IH]; intros Hr.
  - cbn. destruct (relay rs2); reflexivity.
  - cbn [app relay] in *. destruct (alternatives r) as [|alt alts];
      [discriminate Hr|].
    cbn [fst snd] in *. rewrite (IH Hr). cbn [fst snd].
    rewrite app_assoc. reflexivity.
Qed.

Lemma relay_relayed_results rs :
  Forall (fun r => alternatives r <> []) rs ->
  relay rs = (map WriteMessage (map result_payload (relayed_results rs)), Return tt).
Proof. apply relay_well_formed. Qed.

(** X11: a result without alternatives ends the transcription.  The
    callback is given [result.alternatives[0].transcript]; on an empty list
    of alternatives the subscript raises IndexError inside [_handle_results].
    The results of the same response that came before it have been passed
    on, those after it are not; the [finally] clause of [run] calls [stop],
    and the thread dies with the IndexError.  Afterwards the stop event stays
    set, no result is passed on, and at most one more frame is handed to the
    service: that of a turn of the request loop that had passed its test of
    the stop event, and none when no such turn was under way. *)
Theorem result_without_alternative (resp : StreamingRecognizeResponse)
    (before after : list RecognitionResult) (r : RecognitionResult)
    (h : SpeechHandler) :
  thread (transcriber h) = ThreadInTry ->
  error_code resp = OK ->
  results resp = before ++ r :: after ->
  Forall (fun r => alternatives r <> []) before ->
  alternatives r = [] ->
  let e := IndexError "list index out of range" in
  step (Background (Response resp)) h =
    (with_thread (ThreadExited (Raise e)) (stopped h),
     map WriteMessage (map result_payload (relayed_results before)) ++ [Uncaught e]) /\
  forall evs,
    messages (actions_of evs (fst (step (Background (Response resp)) h))) = [] /\
    length (requests (actions_of evs (fst (step (Background (Response resp)) h)))) <= 1 /\
    (in_loop_body (transcriber h) = false ->
     requests (actions_of evs (fst (step (Background (Response resp)) h))) = []) /\
    _stop_event (transcriber (state_after evs (fst (step (Background (Response resp)) h)))) =
      true.
Proof.
  intros Ht Hok Hres Hbefore Hr e.
  assert (Hstep : step (Background (Response resp)) h =
    (with_thread (ThreadExited (Raise e)) (stopped h),
     map WriteMessage (map result_payload (relayed_results before)) ++ [Uncaught e])).
  { rewrite (step_response resp h Ht), (handle_response_ok resp h Hok), Hres.
    rewrite relay_app by (rewrite (relay_relayed_results _ Hbefore); reflexivity).
    rewrite (relay_relayed_results _ Hbefore). cbn [relay fst snd]. rewrite Hr.
    cbn [fst snd]. rewrite app_nil_r. reflexivity. }
  split; [exact Hstep|]. rewrite Hstep. cbn [fst]. intros evs.
  set (h1 := with_thread (ThreadExited (Raise e)) (stopped h)).
  assert (Hs : _stop_event (transcriber h1) = true)
    by (subst h1; destruct_handler h; reflexivity).
  assert (Hx : thread (transcriber h1) = ThreadExited (Raise e))
    by (subst h1; destruct_handler h; reflexivity).
  destruct (steps_exited evs h1 _ Hx) as (_ & Hm).
  destruct (steps_stopped evs h1 Hs) as (Hs' & _ & _).
  destruct (steps_stopped_requests evs h1 Hs) as (Hr1 & Hr0).
  split; [exact Hm|]. split; [exact Hr1|]. split; [|exact Hs'].
  intros Hl. apply Hr0. subst h1. destruct_handler h. exact Hl.
Qed.

Lemma result_without_alternative_witness :
  let resp := {| error_code := OK; error_message := "";
                 results := [{| alternatives := [{| transcript := "hi" |}];
                                result_is_final := false |};
                             {| alternatives := []; result_is_final := true |};
                             {| alternatives := [{| transcript := "there" |}];
                                result_is_final := true |}] |} in
  let h := state_after connect_by_config fresh in
  messages (snd (step (Background (Response resp)) h)) =
    [result_payload {| text := "hi"; is_final := false |}] /\
  uncaught (snd (step (Background (Response resp)) h)) =
    [IndexError "list index out of range"].
Proof.
  intros resp h.
  destruct (result_without_alternative resp
              [{| alternatives := [{| transcript := "hi" |}]; result_is_final := false |}]
              [{| alternatives := [{| transcript := "there" |}]; result_is_final := true |}]
              {| alternatives := []; result_is_final := true |} h
              eq_refl eq_refl eq_refl) as [Hstep _].
  - repeat constructor. discriminate.
  - reflexivity.
  - rewrite Hstep. split; reflexivity.
Defined.

Lemma stream_opens_written l : stream_opens (map WriteMessage l) = 0.
Proof. induction l as [|x l IH]; cbn; congruence. Qed.

(** The responses up to the first that [_handle_results] stops at. *)
Lemma handle_results_stops_at good : forall bad rest ending h,
  well_formed good ->
  error_code bad <> OK ->
  handler_handle_results (good ++ bad :: rest) ending h =
  (stopped h, map WriteMessage (map result_payload (relayed good)),
   Raise (RuntimeError (String.append "Speech API Error: " (error_message bad)))).
Proof.
  induction good as [|resp good IH]; intros bad rest ending h Hwf Hbad.
  - unfold handler_handle_results. cbn [app _handle_results]. unfold bind.
    rewrite (handle_response_error bad h Hbad). reflexivity.
  - apply well_formed_cons in Hwf as (Hok & Halt & Hwf).
    unfold handler_handle_results in *. cbn [app _handle_results]. unfold bind.
    rewrite (handle_response_ok resp h Hok), (relay_well_formed _ Halt).
    cbn [fst snd]. rewrite (IH bad rest ending h Hwf Hbad), relayed_cons, !map_app.
    unfold relayed at 2, transcribed, result_events. cbn [flat_map].
    rewrite app_nil_r. reflexivity.
Qed.

(** X12: [_handle_results] reads no response after one with an error
    code.  Given responses of which some well-formed ones come first and one
    with a code other than OK follows, it passes on the results of the first
    ones, calls [stop] and raises the RuntimeError with the message of the
    failing response; what the stream holds after it, and how the stream
    would have ended, makes no difference.  [run], which calls it, ends with
    the same error, one streaming call opened and the stop event set, when it
    gets as far as its [try] block: when [_create_channel], or the making of
    the client and of the configuration, raises, [run] ends with that
    exception instead, reads no response, opens no streaming call and does
    not call [stop]. *)
Theorem responses_after_an_error_are_not_read
    (good rest rest' : list StreamingRecognizeResponse)
    (bad : StreamingRecognizeResponse) (ending ending' : option string)
    (h : SpeechHandler) :
  well_formed good ->
  error_code bad <> OK ->
  let e := RuntimeError (String.append "Speech API Error: " (error_message bad)) in
  handler_handle_results (good ++ bad :: rest) ending h =
    (stopped h, map WriteMessage (map result_payload (relayed good)), Raise e) /\
  handler_handle_results (good ++ bad :: rest) ending h =
    handler_handle_results (good ++ bad :: rest') ending' h /\
  (_stop_event (transcriber h) = false ->
   let '(h', out, r) := handler_run None None (good ++ bad :: rest) ending h in
   r = Raise e /\
   messages out = map result_payload (relayed good) /\
   stream_opens out = 1 /\
   _stop_event (transcriber h') = true /\
   is_started (transcriber h') = false) /\
  (_stop_event (transcriber h) = false ->
   forall channel built,
     channel <> None \/ built <> None ->
     let '(h', out, r) := handler_run channel built (good ++ bad :: rest) ending h in
     (exists name, r = Raise (ExternalError name)) /\
     out = [] /\
     _stop_event (transcriber h') = false /\
     is_started (transcriber h') =
       match channel with Some _ => is_started (transcriber h) | None => true end).
Proof.
  intros Hwf Hbad e.
  split; [apply handle_results_stops_at; assumption|].
  split; [rewrite !handle_results_stops_at by assumption; reflexivity|].
  split.
  2: { intros Hs channel built Hf.
       rewrite (run_fails_before_try channel built _ ending h Hf Hs).
       destruct channel as [c|]; [eauto 10|].
       destruct built as [b|]; [destruct_handler h; cbn in Hs |- *; eauto 10|].
       destruct Hf as [Hf|Hf]; contradiction. }
  intros Hs. unfold handler_run, run.
  unfold bind at 1. unfold self at 1, zoom at 1. cbn [get fst snd].
  rewrite set_transcriber_same, Hs. cbn [app ret].
  unfold bind at 1. cbn [ret app].
  unfold bind at 1. unfold self at 1, zoom at 1, modify at 1. cbn [fst snd app].
  unfold bind at 1. cbn [ret app].
  unfold try_finally.
  unfold bind at 1. unfold self at 1, zoom at 1, modify at 1. cbn [fst snd app].
  unfold bind at 1. unfold self at 1, zoom at 1. cbn [get fst snd app].
  unfold bind at 1. cbn [emit app].
  fold (handler_handle_results (good ++ bad :: rest) ending).
  rewrite handle_results_stops_at by assumption.
  destruct_handler h. cbn. read_actions. rewrite messages_written. cbn.
  rewrite stream_opens_written. auto.
Qed.

Lemma responses_after_an_error_are_not_read_witness :
  handler_handle_results ([one_result "hi" false] ++ cancelled :: [one_result "x" true])
    None fresh =
  (stopped fresh,
   [WriteMessage (result_payload {| text := "hi"; is_final := false |})],
   Raise (RuntimeError "Speech API Error: x")).
Proof.
  assert (Hwf : well_formed [one_result "hi" false]).
  { split; repeat constructor. discriminate. }
  assert (Hbad : error_code cancelled <> OK) by discriminate.
  exact (proj1 (responses_after_an_error_are_not_read
                  [one_result "hi" false] [one_result "x" true] [] cancelled
                  None None fresh Hwf Hbad)).
Defined.

(** * Sessions side by side *)

Lemma session_events_app a evs1 evs2 :
  session_events a (evs1 ++ evs2) = session_events a evs1 ++ session_events a evs2.
Proof. apply flat_map_app. Qed.

Lemma state_after_snoc evs ev h :
  state_after (evs ++ [ev]) h = fst (step ev (state_after evs h)).
Proof. rewrite state_after_app, state_after_cons. reflexivity. Qed.

Lemma handlers_deliver a ev sv :
  handlers (deliver a ev sv) =
  match handlers sv !! a with
  | Some h => <[a := fst (step ev h)]> (handlers sv)
  | None => handlers sv
  end.
Proof. unfold deliver. destruct (handlers sv !! a); reflexivity. Qed.

Lemma handlers_session a ev sv :
  handlers (server_step sv (Session a ev)) = handlers (deliver a ev sv).
Proof.
  destruct ev as [msg now| |c|w]; try reflexivity.
  cbn [server_step]. unfold on_close.
  destruct (handlers sv !! a) as [h|] eqn:Hh.
  - destruct (_clients (deliver a SocketClosed sv) !! _id h); reflexivity.
  - unfold deliver. rewrite Hh. reflexivity.
Qed.

(** X13: the sessions of a server do not touch each other.  After every
    sequence of events of the server, the handler made as the a-th is in the
    state that its own events alone, those of its session since it was made,
    lead to from [__init__] with the id a: what happens in other sessions,
    and which handlers are made, opened or closed, makes no difference to
    it. *)
Theorem sessions_are_independent (evs : list server_event) (a : nat)
    (h : SpeechHandler) :
  handlers (server_after evs) !! a = Some h ->
  exists local before after,
    evs = before ++ NewHandler local :: after /\
    handlers_made before = a /\
    h = state_after (session_events a after) (SpeechHandler_init a local).
Proof.
  revert a h. induction evs as [|ev evs IH] using rev_ind; intros a h Hl.
  - discriminate Hl.
  - destruct (server_invariant evs) as (Hcount & Hlen & _ & _).
    unfold server_after in *. rewrite fold_left_app in Hl. cbn [fold_left] in Hl.
    set (sv := fold_left server_step evs Server_init) in *.
    assert (Hkeep : handlers sv !! a = Some h -> session_events a [ev] = [] ->
              exists local before after,
                evs ++ [ev] = before ++ NewHandler local :: after /\
                handlers_made before = a /\
                h = state_after (session_events a after) (SpeechHandler_init a local)).
    { intros Hh Hnone.
      destruct (IH a h Hh) as (local & before & after & -> & Hmade & ->).
      exists local, before, (after ++ [ev]).
      split; [rewrite <- app_assoc; reflexivity|]. split; [exact Hmade|].
      rewrite session_events_app, Hnone, app_nil_r. reflexivity. }
    destruct ev as [local | b | b e].
    + (* a handler is made *)
      cbn [server_step new_handler handlers] in Hl.
      apply lookup_app_Some in Hl as [Hl | [Hge Hl]]; [apply Hkeep; auto|].
      destruct (a - length (handlers sv)) as [|n] eqn:Hd;
        [|destruct n; discriminate Hl].
      cbn in Hl. injection Hl as <-.
      exists local, evs, []. split; [reflexivity|].
      assert (Ha : a = length (handlers sv)) by lia.
      split; [lia|]. cbn. f_equal. lia.
    + (* open *)
      apply Hkeep; [|reflexivity].
      cbn [server_step] in Hl. unfold open in Hl.
      destruct (handlers sv !! b) as [hb|]; [|exact Hl].
      destruct (_clients sv !! _id hb); exact Hl.
    + (* an event of a session *)
      rewrite handlers_session, handlers_deliver in Hl.
      destruct (handlers sv !! b) as [hb|] eqn:Hb.
      * destruct (decide (b = a)) as [->|Hne].
        -- rewrite list_lookup_insert_eq in Hl by (eapply lookup_lt_Some; eauto).
           injection Hl as <-.
           destruct (IH a hb Hb) as (local & before & after & -> & Hmade & ->).
           exists local, before, (after ++ [Session a e]).
           split; [rewrite <- app_assoc; reflexivity|]. split; [exact Hmade|].
           rewrite session_events_app. cbn [session_events flat_map].
           rewrite Nat.eqb_refl. cbn [app]. rewrite state_after_snoc. reflexivity.
        -- rewrite list_lookup_insert_ne in Hl by exact Hne.
           apply Hkeep; [exact Hl|]. cbn.
           destruct (Nat.eqb_spec b a); [contradiction|reflexivity].
      * apply Hkeep; [exact Hl|]. cbn.
        destruct (Nat.eqb_spec b a) as [->|]; [congruence|reflexivity].
Qed.

Lemma sessions_are_independent_witness :
  let evs := [NewHandler false; NewHandler true; Opened 0; Opened 1;
              Session 0 (Message (Binary frame_a) 1%Q);
              Session 1 (Call Start);
              Session 0 SocketClosed] in
  exists local before after,
    evs = before ++ NewHandler local :: after /\
    handlers_made before = 1 /\
    state_after [Call Start] (SpeechHandler_init 1 true) =
    state_after (session_events 1 after) (SpeechHandler_init 1 local).
Proof.
  intros evs.
  exact (sessions_are_independent evs 1
           (state_after [Call Start] (SpeechHandler_init 1 true)) eq_refl).
Defined.

(** * A session started by a binary frame *)

Lemma step_stalled ev h :
  stalled h ->
  through_the_socket ev ->
  _stop_event (transcriber (fst (step ev h))) = false ->
  stalled (fst (step ev h)) /\
  pushed (snd (step ev h)) = [] /\
  (nonempty_frames (queue (audio_stream (transcriber h))) =
     requests (snd (step ev h)) ++
     nonempty_frames (queue (audio_stream (transcriber (fst (step ev h))))) \/
   requests (snd (step ev h)) = [] /\
   request_stream (transcriber (fst (step ev h))) = GenFinished).
Proof.
  unfold stalled, through_the_socket. intros Hs Hev. unfold_invariants.
  step_cases ev h; read_actions; frames; cbn in *; subst;
    repeat match goal with
           | H : _ /\ _ |- _ => destruct H
           | H : ?b = false -> _ |- _ => is_var b; destruct b
           | H : false = false -> _ |- _ => specialize (H eq_refl)
           | H : ?x = ?x -> _ |- _ => specialize (H eq_refl)
           | H : match ?st with _ => _ end |- _ =>
               destruct st; try contradiction
           | H : Qeq_bool ?x 0 = false, H' : truthy (PFloat ?x) && _ = false |- _ =>
               cbn [truthy] in H'; rewrite H in H'; discriminate H'
           end;
    subst; try discriminate; try contradiction;
    intros; try discriminate;
    (split; [split; [auto|intros; try discriminate; auto]|split; auto]).
Qed.

Lemma step_start_time_float ev h :
  (_start_time h = PNone \/ exists x, _start_time h = PFloat x) ->
  _start_time (fst (step ev h)) = PNone \/
  exists x, _start_time (fst (step ev h)) = PFloat x.
Proof.
  intros Hst. step_cases ev h; cbn in *; eauto.
Qed.

Lemma reachable_start_time_float h :
  reachable h -> _start_time h = PNone \/ exists x, _start_time h = PFloat x.
Proof.
  intros (id & local & evs & ->).
  enough (Hgen : forall h0,
    (_start_time h0 = PNone \/ exists x, _start_time h0 = PFloat x) ->
    _start_time (state_after evs h0) = PNone \/
    exists x, _start_time (state_after evs h0) = PFloat x).
  { apply Hgen. left. reflexivity. }
  induction evs as [|ev evs IH]; intros h0 H0; [exact H0|].
  rewrite state_after_cons. apply IH, step_start_time_float, H0.
Qed.

Lemma stalled_guard h :
  stalled h -> _stop_event (transcriber h) = false -> timeout_guard h = true.
Proof.
  intros (_ & Hs) Hse. destruct (Hs Hse) as (Hi & Hx).
  unfold timeout_guard. rewrite Hi.
  destruct (_start_time h); try contradiction. cbn. rewrite Hx. reflexivity.
Qed.

(** X14: a session that has set [_start_time] takes in no audio while it
    streams.  In a session, [_start_time] is None or a float; when it is a
    float other than zero and [is_started] is true, the test at the head of
    [on_message] raises for every message.  This lasts until [stop] is
    called: as long as the stop event is not set, whatever comes through the
    socket and whatever the worker does, the test still holds, nothing has
    been written to the queue, and the frames handed to the service are
    frames that were in the queue already: they are an initial part of its
    non-empty frames. *)
Theorem frames_after_connecting_are_lost (h : SpeechHandler) (evs : list event) :
  reachable h ->
  timeout_guard h = true ->
  Forall through_the_socket evs ->
  (forall msg now,
     step (Message msg now) h = (h, [Uncaught float_has_no_total_seconds])) /\
  (_stop_event (transcriber (state_after evs h)) = false ->
   timeout_guard (state_after evs h) = true /\
   pushed (actions_of evs h) = [] /\
   exists rest,
     nonempty_frames (queue (audio_stream (transcriber h))) =
     requests (actions_of evs h) ++ rest).
Proof.
  intros Hr Hg Hevs.
  pose proof (reachable_consistent h Hr) as (_ & Hin & _).
  unfold timeout_guard in Hg.
  apply andb_true_iff in Hg as [Hx Hs].
  destruct (reachable_start_time_float h Hr) as [Hst | [x Hst]];
    rewrite Hst in Hx; [discriminate Hx|].
  split.
  { intros msg now. unfold step, exec, on_message, bind at 1, timed_out, bind at 1.
    cbn [get]. rewrite Hst, Hs, Hx. reflexivity. }
  assert (Hstalled : stalled h).
  { split; [exact (Hin Hs)|].
    intros _. rewrite Hst. split; [exact Hs|].
    cbn [truthy] in Hx. destruct (Qeq_bool x 0); [discriminate Hx|reflexivity]. }
  clear - Hstalled Hevs. revert h Hstalled.
  induction Hevs as [|ev evs Hev Hevs IH]; intros h Hstalled Hend.
  - split; [apply stalled_guard; assumption|]. split; [reflexivity|].
    exists (nonempty_frames (queue (audio_stream (transcriber h)))). reflexivity.
  - rewrite state_after_cons in Hend |- *. rewrite actions_of_cons. read_actions.
    assert (Hmid : _stop_event (transcriber (fst (step ev h))) = false).
    { destruct (_stop_event (transcriber (fst (step ev h)))) eqn:Hse; [|reflexivity].
      destruct (steps_stopped evs _ Hse) as (Hse' & _). congruence. }
    destruct (step_stalled ev h Hstalled Hev Hmid) as (Hnext & Hpush & Hstep).
    destruct (IH _ Hnext Hend) as (Hguard & Hpushed & rest & Hrest).
    split; [exact Hguard|]. split; [rewrite Hpush, Hpushed; reflexivity|].
    destruct Hstep as [Hq | [Hreq Hfin]].
    + exists rest. rewrite Hq, Hrest, app_assoc. reflexivity.
    + assert (Hn : no_generator (fst (step ev h))).
      { split; [apply Hnext|]. rewrite Hfin. exact I. }
      destruct (steps_no_generator evs _ Hn) as (_ & Hreqs & _).
      rewrite Hreq, Hreqs. eexists. reflexivity.
Qed.

Lemma frames_after_connecting_are_lost_witness :
  let evs := [Message (Binary frame_b) 1001%Q; Background Pull; Background Pull] in
  requests (actions_of evs streaming_since_1000) = [frame_a] /\
  pushed (actions_of evs streaming_since_1000) = [] /\
  exists rest,
    nonempty_frames (queue (audio_stream (transcriber streaming_since_1000))) =
    requests (actions_of evs streaming_since_1000) ++ rest.
Proof.
  intros evs. split; [reflexivity|].
  assert (Hr : reachable streaming_since_1000)
    by (exists 0, false; eexists; reflexivity).
  assert (Hevs : Forall through_the_socket evs) by (repeat constructor).
  destruct (frames_after_connecting_are_lost streaming_since_1000 evs
              Hr eq_refl Hevs) as (_ & H).
  destruct (H eq_refl) as (_ & Hp & Hrest). auto.
Defined.

(** * The flags of a transcriber *)




(** * Callbacks that raise *)

(** X16: an exception raised by the [on_transcribing] callback is raised
    inside the [with] block of [_request_stream].  The frame it was called
    with has been taken off the queue and is not handed to the service; on
    the way out [__exit__] clears the rest of the queue, and the generator
    has finished, so that the consumer sees the exception and later frames
    are not read. *)
Theorem on_transcribing_error_ends_the_stream
    (callback : frame -> M Transcriber unit) (d : frame) (rest : list frame)
    (t t' : Transcriber) (out : list action) (e : exn) :
  request_stream t = GenInWith ->
  _stop_event t = false ->
  queue (audio_stream t) = d :: rest ->
  d <> [] ->
  callback d (set_audio_stream {| queue := rest |} t) = (t', out, Raise e) ->
  transcriber_step None (Some callback) None Pull t =
    (set_request_stream GenFinished (set_audio_stream {| queue := [] |} t'),
     out ++ [Uncaught e], Return tt) /\
  forall later,
    request_stream
      (fst (fst (transcriber_step None (Some callback) None Pull
                   (set_audio_stream {| queue := later |}
                      (set_request_stream GenFinished
                         (set_audio_stream {| queue := [] |} t'))))))
      = GenFinished /\
    snd (fst (transcriber_step None (Some callback) None Pull
                (set_audio_stream {| queue := later |}
                   (set_request_stream GenFinished
                      (set_audio_stream {| queue := [] |} t'))))) = [].
Proof.
  intros Hg Hs Hq Hd Hcb. split.
  - destruct t as [[q] enc lang punct rt tmo ir ic ist ts se th gs lp].
    cbn in Hg, Hs, Hq. subst.
    destruct d as [|b d]; [contradiction|].
    unfold transcriber_step, worker_step, request_stream_resume, request_stream_turn,
      request_stream_body, leave_with, self, zoom, bind, attempt, get, modify, ret,
      emit, raise, on_stream, read, __exit__ in *.
    destruct lp; cbn in Hcb |- *; rewrite Hcb; cbn; rewrite ?app_nil_r; reflexivity.
  - intros later. destruct t' as [[q'] enc lang punct rt tmo ir ic ist ts se th gs lp].
    destruct th; split; reflexivity.
Qed.

Lemma on_transcribing_error_ends_the_stream_witness :
  let callback := fun _ : frame => raise (RuntimeError "disk full") : M Transcriber unit in
  let t := set_request_stream GenInWith
             (set_audio_stream {| queue := [frame_a; frame_b] |} Transcriber_init) in
  transcriber_step None (Some callback) None Pull t =
    (set_request_stream GenFinished
       (set_audio_stream {| queue := [] |} Transcriber_init),
     [Uncaught (RuntimeError "disk full")], Return tt).
Proof.
  intros callback t.
  assert (Hd : frame_a <> []) by discriminate.
  exact (proj1 (on_transcribing_error_ends_the_stream callback frame_a [frame_b] t
                  (set_request_stream GenInWith
                     (set_audio_stream {| queue := [frame_b] |} Transcriber_init))
                  [] (RuntimeError "disk full") eq_refl eq_refl eq_refl Hd eq_refl)).
Defined.
